(** * isolated-vm: the cross-isolate execution substrate

    A shallow embedding of the headers [isolate/environment.h],
    [external_copy.h] and [isolate/util.h], and the properties the
    specification states about them.

    Conventions of the embedding.
    - A [v8::MaybeLocal<T>], a [v8::Eternal<T>] and a nullable smart pointer
      are [option]s: [None] is the empty handle or the null pointer.
    - A [std::vector] is a [list], read with [!!] and written with
      [<[i:=x]>]; every index the code uses is shown to be in range, or the
      out-of-range behaviour is written out.
    - Objects that are shared between owners (environments, holders, array
      buffer backing stores) live in stores ([gmap]s from addresses), so
      that aliasing is visible.
    - A C++ exception, a failed [assert] and a dereferenced null pointer
      are the alternatives of a result type. *)

From stdpp Require Import base numbers option list gmap strings pretty.

Set Warnings "-register-all".
Local Open Scope Z_scope.

(** ** Engine values ([v8::Value]) *)

(** A [double] is carried around as its 64-bit pattern; the code never
    computes with it. *)
Definition double := Z.

(** A UTF-16 code unit ([uint16_t]). *)
Definition uint16 := Z.

(** A byte ([uint8_t]). *)
Definition uint8 := Z.

(** An address in a store: an environment, a holder, a backing store. *)
Definition addr := nat.

Module ErrorType.
(** [ExternalCopyError::ErrorType]. *)
Inductive t := RangeError | ReferenceError | SyntaxError | TypeError | Error.

(** The enumerators are numbered from 1. *)
Definition to_Z (e : t) : Z :=
  match e with
  | RangeError => 1 | ReferenceError => 2 | SyntaxError => 3
  | TypeError => 4 | Error => 5
  end.
End ErrorType.

Module ViewType.
(** [ExternalCopyArrayBufferView::ViewType]. *)
Inductive t :=
  Uint8 | Uint8Clamped | Int8 | Uint16 | Int16 | Uint32 | Int32
| Float32 | Float64 | DataView.
End ViewType.

(** The values of the engine. An array buffer and a view name the backing
    store of the isolate they live in: the store is what a transfer
    detaches. Arrays and plain objects, which the code under study only
    hands to the engine's serializer, are trees. A [Symbol] is a symbol
    other than the well-known ones; a [NativeObject] is an object made by
    native code, inside or outside the set of handle classes of this
    library. *)
Inductive Value : Type :=
  | Undefined
  | Null
  | Boolean (b : bool)
  | Number (d : double)
  | String (units : list uint16)
  | Symbol (description : list uint16)
  | Date (time : double)
  | Array (elements : list Value)
  | Object (properties : list (list uint16 * Value))
  | Function (code : nat)
  | NativeObject (in_handle_set : bool) (ident : nat)
  | ErrorObject (kind : ErrorType.t) (message stack : list uint16)
  | ArrayBuffer (store : addr)
  | ArrayBufferView (view : ViewType.t) (store : addr).

(** ** The engine's isolate ([v8::Isolate]) *)

(** The backing store of an array buffer. A neutered (detached) buffer has
    no contents left. *)
Record BackingStore := {
  contents : list uint8;
  neutered : bool
}.

(** What the code under study observes of a [v8::Isolate]: the values it
    has allocated, newest first; the external string resources it borrows;
    the backing stores of its array buffers; and whether
    [TerminateExecution] was called. *)
Record Isolate := {
  objects : list Value;
  external_strings : list (list uint16);
  buffers : gmap addr BackingStore;
  terminating : bool
}.

Definition empty_isolate : Isolate :=
  {| objects := []; external_strings := []; buffers := ∅;
     terminating := false |}.

(** [isolate->TerminateExecution()]. *)
Definition TerminateExecution (i : Isolate) : Isolate :=
  {| objects := objects i; external_strings := external_strings i;
     buffers := buffers i; terminating := true |}.

(** A new value on the heap. *)
Definition allocate (v : Value) (i : Isolate) : Isolate :=
  {| objects := v :: objects i; external_strings := external_strings i;
     buffers := buffers i; terminating := terminating i |}.

(** A new external string resource, and the string that borrows it. *)
Definition externalize (resource : list uint16) (i : Isolate) : Isolate :=
  {| objects := String resource :: objects i;
     external_strings := resource :: external_strings i;
     buffers := buffers i; terminating := terminating i |}.

Definition set_buffers (b : gmap addr BackingStore) (i : Isolate) : Isolate :=
  {| objects := objects i; external_strings := external_strings i;
     buffers := b; terminating := terminating i |}.

(** [buffer->ByteLength()], the [byteLength] a script reads. *)
Definition ByteLength (store : addr) (i : Isolate) : option Z :=
  b ← buffers i !! store; Some (Z.of_nat (length (contents b))).

(** ** [isolate/environment.h] *)

(** [v8::HeapStatistics], the fields the heap guard reads. *)
Record HeapStatistics := {
  used_heap_size : Z;
  external_memory : Z
}.

(** [IsolateHolder] (declared in [holder.h]); [Terminate] resets its
    [isolate] pointer. *)
Record IsolateHolder := {
  holder_isolate : option addr
}.

(** The members of [IsolateEnvironment] that the operations below read or
    write. The environment owns its [v8::Isolate]. *)
Record IsolateEnvironment := {
  isolate : Isolate;
  holder : option addr;
  memory_limit : Z;
  hit_memory_limit : bool;
  root : bool;
  last_heap : HeapStatistics;
  rejected_promise_error : option Value;
  specifics : list (option Value);
  terminated : bool
}.

(** ** Outcomes of a call *)

(** The ways a call does not come back: a failed [assert], a null pointer
    that is dereferenced, a crash inside the engine, and the overflow of an
    [int]. *)
Inductive Abort :=
  AssertionFailed | NullDereference | EngineCrash | SignedOverflow.

(** The error kinds the specification surfaces to callers. *)
Inductive ErrorKind :=
  NotSerializable | HeapLimit | IsolateDisposed | Terminated | ScriptError
| Fatal.

(** The C++ exceptions of [isolate/util.h], the [std::logic_error] of the
    standard library, and the errors of the specification for the
    operations whose bodies are modelled from it. *)
Inductive Exception :=
  | js_runtime_error
  | js_fatal_error
  | std_logic_error
  | Failure (kind : ErrorKind).

Inductive Completion (A : Type) : Type :=
  | Return (a : A)
  | Throw (e : Exception)
  | Die (why : Abort).
Arguments Return {A} a.
Arguments Throw {A} e.
Arguments Die {A} why.

Global Instance Completion_ret : MRet Completion := @Return.

Global Instance Completion_bind : MBind Completion := fun A B k c =>
  match c with
  | Return a => k a
  | Throw e => Throw e
  | Die w => Die w
  end.

(** [assert(cond)]. *)
Definition assert (cond : bool) : Completion unit :=
  if cond then Return tt else Die AssertionFailed.

(** [*ptr] for a pointer into a store. *)
Definition deref {A : Type} (store : gmap addr A) (ptr : option addr)
  : Completion A :=
  match ptr with
  | None => Die NullDereference
  | Some a =>
      match store !! a with
      | Some x => Return x
      | None => Die NullDereference
      end
  end.

(** ** The engine's entry points *)

(** What the engine decides and the code under study cannot: the longest
    string it makes ([v8::String::kMaxLength]), the UTF-8 rendering of a
    value ([v8::String::Utf8Value], null when the conversion fails), and
    the structured-clone serializer and deserializer
    ([v8::ValueSerializer], [v8::ValueDeserializer]). *)
Class Engine := {
  kMaxLength : Z;
  Utf8Value : Value -> option string;
  WriteValue : Value -> option (list uint8);
  ReadValue : list uint8 -> option Value
}.

(** A C string ends at its first NUL. *)
Fixpoint c_str (s : string) : string :=
  match s with
  | EmptyString => EmptyString
  | String.String c s' =>
      if decide (c = Ascii.zero) then EmptyString
      else String.String c (c_str s')
  end.

(** One-byte characters widened to UTF-16 code units. *)
Fixpoint widen (s : string) : list uint16 :=
  match s with
  | EmptyString => []
  | String.String c s' => Z.of_N (Ascii.N_of_ascii c) :: widen s'
  end.

(** [v8::String::NewFromOneByte(isolate, data, type)], without a length:
    the data is a C string. A [v8::Local<v8::String>] is given by its code
    units. Called without a length, the engine stops the process on a C
    string longer than it allows. *)
Definition NewFromOneByte `{Engine} (data : string)
  : Completion (option (list uint16)) :=
  let s := c_str data in
  if decide (Z.of_nat (String.length s) <= kMaxLength)
  then Return (Some (widen s)) else Die EngineCrash.

(** [v8::String::Empty(isolate)]: the canonical empty string, which is not
    allocated. *)
Definition String_Empty : Value := String [].

(** [v8::String::NewExternalTwoByte(isolate, resource)]. The engine crashes
    on a resource of length zero, as the comment in
    [ExternalCopyString::CopyInto] records. *)
Definition NewExternalTwoByte `{Engine} (resource : list uint16)
  (i : Isolate) : Completion (option Value) * Isolate :=
  match resource with
  | [] => (Die EngineCrash, i)
  | _ =>
      if decide (Z.of_nat (length resource) <= kMaxLength)
      then (Return (Some (String resource)), externalize resource i)
      else (Return None, i)
  end.

(** [value->IsObject()]. *)
Definition IsObject (v : Value) : bool :=
  match v with
  | Undefined | Null | Boolean _ | Number _ | String _ | Symbol _ => false
  | _ => true
  end.

(** Own properties of a plain object, in insertion order. *)
Fixpoint get_property (k : list uint16) (props : list (list uint16 * Value))
  : option Value :=
  match props with
  | [] => None
  | (k', v) :: ps => if decide (k' = k) then Some v else get_property k ps
  end.

Fixpoint set_property (k : list uint16) (v : Value)
  (props : list (list uint16 * Value)) : list (list uint16 * Value) :=
  match props with
  | [] => [(k, v)]
  | (k', v') :: ps =>
      if decide (k' = k) then (k, v) :: ps
      else (k', v') :: set_property k v ps
  end.

(** The property name [message], as code units. *)
Definition message_key : list uint16 := widen "message".

(** [object->Get(context, v8_symbol("message"))]. An error object has its
    message; a plain object has its own properties; the values that are
    objects of other classes show no such property. *)
Definition Get_message (object : Value) : option Value :=
  match object with
  | ErrorObject _ m _ => Some (String m)
  | Object props => Some (default Undefined (get_property message_key props))
  | _ => Some Undefined
  end.

(** [object->Set(context, v8_symbol("message"), v8_string(...))], and the
    object afterwards: it is updated in place. The value set is always a
    string here. The stack of an error object is the one recorded when
    it was made; how the engine renders a stack that has not been read
    yet is not modelled, nor are the own properties of arrays, dates,
    functions and native objects. *)
Definition Set_message (object : Value) (units : list uint16)
  : option bool * Value :=
  match object with
  | ErrorObject k _ st => (Some true, ErrorObject k units st)
  | Object props =>
      (Some true, Object (set_property message_key (String units) props))
  | _ => (Some true, object)
  end.

(** [v8::Message], as far as [RunWithAnnotatedErrors] reads it. *)
Record Message := {
  GetLineNumber : option Z;
  GetStartColumn : option Z;
  GetScriptResourceName : Value
}.

(** What a [v8::TryCatch] holds: nothing, or an exception and its
    message. *)
Definition TryCatch := option (Value * Message).

(** ** [isolate/util.h] *)

(** [Unmaybe]: "convert a MaybeLocal<T> to Local<T> and throw an error if
    it's empty". *)
Definition Unmaybe {T : Type} (handle : option T) : Completion T :=
  match handle with
  | Some local => Return local
  | None => Throw js_runtime_error
  end.

(** [v8_string]. *)
Definition v8_string `{Engine} (s : string) : Completion (list uint16) :=
  handle ← NewFromOneByte s; Unmaybe handle.

(** The [std::string] made from the character pointer of a [Utf8Value].
    From a null pointer the constructor throws [std::logic_error] (as that
    of libstdc++ does). *)
Definition std_string (p : option string) : Completion string :=
  match p with
  | Some s => Return (c_str s)
  | None => Throw std_logic_error
  end.

(** [std::to_string(int)]. *)
Definition to_string (n : Z) : string := pretty n.

Definition INT_MAX : Z := 2147483647.

(** [a + b] on [int]s. *)
Definition int_add (a b : Z) : Completion Z :=
  if decide (- INT_MAX - 1 <= a + b <= INT_MAX) then Return (a + b)
  else Die SignedOverflow.

(** The handler of [RunWithAnnotatedErrors], from the assertion that the
    [v8::TryCatch] has caught to [isolate->ThrowException(error)]: the
    result is the error that is thrown, with its message decorated. *)
Definition annotate `{Engine} (try_catch : TryCatch) : Completion Value :=
  match try_catch with
  | None => Die AssertionFailed
  | Some (error, message) =>
      _ ← assert (IsObject error);
      linenum ← Unmaybe (GetLineNumber message);
      start_column ← Unmaybe (GetStartColumn message);
      resource ← std_string (Utf8Value (GetScriptResourceName message));
      column ← int_add start_column 1;
      let decorator :=
        resource +:+ ":" +:+ to_string linenum +:+ ":" +:+ to_string column in
      property ← Unmaybe (Get_message error);
      message_str ← std_string (Utf8Value property);
      text ← v8_string (message_str +:+ " [" +:+ decorator +:+ "]");
      let '(done, error) := Set_message error text in
      _ ← Unmaybe done;
      Return error
  end.

(** [RunWithAnnotatedErrors<T>(fn)]. The call of [fn] is given by its
    outcome and by what the [v8::TryCatch] of this function holds when
    [fn] is done. The result is the outcome of the function and the
    exception that is pending in the isolate when it is left. In the
    handler every path ends in [try_catch.ReThrow()] and a
    [js_runtime_error]: the [throw] after [ThrowException] is inside the
    inner [try]. An exception of another class, from [fn] or from the
    handler itself, passes through, and the destructor of the
    [v8::TryCatch] drops what it had caught. *)
Definition RunWithAnnotatedErrors `{Engine} {T : Type}
  (fn : Completion T * TryCatch) : Completion T * option Value :=
  match fn with
  | (Return v, _) => (Return v, None)
  | (Throw js_runtime_error, try_catch) =>
      match annotate try_catch with
      | Return error => (Throw js_runtime_error, Some error)
      | Throw js_runtime_error =>
          (Throw js_runtime_error, fst <$> try_catch)
      | Throw e => (Throw e, None)
      | Die w => (Die w, None)
      end
  | (Throw e, _) => (Throw e, None)
  | (Die w, _) => (Die w, None)
  end.

(** The decoration alone: what the handler does to the message of an error
    for a given [v8::Message]. *)
Definition decorate `{Engine} (message : Message) (error : Value)
  : Completion Value :=
  annotate (Some (error, message)).

(** The text the handler appends to the message, for the resource name
    as a C string, the line and the start column. *)
Definition annotation (resource : string) (linenum start_column : Z)
  : string :=
  " [" +:+ (resource +:+ ":" +:+ to_string linenum +:+ ":"
            +:+ to_string (start_column + 1)) +:+ "]".

(** ** The process: the environments and holders that are alive

    An object stays in its store for as long as the model runs: whoever
    calls an operation on it holds a reference that keeps it alive. *)

Record Process := {
  isolates : gmap addr IsolateEnvironment;
  holders : gmap addr IsolateHolder
}.

Definition store_isolate (a : addr) (env : IsolateEnvironment) (p : Process)
  : Process :=
  {| isolates := <[a := env]> (isolates p); holders := holders p |}.

Definition store_holder (a : addr) (h : IsolateHolder) (p : Process)
  : Process :=
  {| isolates := isolates p; holders := <[a := h]> (holders p) |}.

(** Record updates of [IsolateEnvironment]. *)
Definition set_isolate (x : Isolate) (e : IsolateEnvironment)
  : IsolateEnvironment :=
  {| isolate := x; holder := holder e; memory_limit := memory_limit e;
     hit_memory_limit := hit_memory_limit e; root := root e;
     last_heap := last_heap e;
     rejected_promise_error := rejected_promise_error e;
     specifics := specifics e; terminated := terminated e |}.

Definition set_holder (x : option addr) (e : IsolateEnvironment)
  : IsolateEnvironment :=
  {| isolate := isolate e; holder := x; memory_limit := memory_limit e;
     hit_memory_limit := hit_memory_limit e; root := root e;
     last_heap := last_heap e;
     rejected_promise_error := rejected_promise_error e;
     specifics := specifics e; terminated := terminated e |}.

Definition set_hit_memory_limit (x : bool) (e : IsolateEnvironment)
  : IsolateEnvironment :=
  {| isolate := isolate e; holder := holder e;
     memory_limit := memory_limit e; hit_memory_limit := x;
     root := root e; last_heap := last_heap e;
     rejected_promise_error := rejected_promise_error e;
     specifics := specifics e; terminated := terminated e |}.

Definition set_last_heap (x : HeapStatistics) (e : IsolateEnvironment)
  : IsolateEnvironment :=
  {| isolate := isolate e; holder := holder e;
     memory_limit := memory_limit e;
     hit_memory_limit := hit_memory_limit e; root := root e;
     last_heap := x; rejected_promise_error := rejected_promise_error e;
     specifics := specifics e; terminated := terminated e |}.

Definition set_rejected_promise_error (x : option Value) (e : IsolateEnvironment)
  : IsolateEnvironment :=
  {| isolate := isolate e; holder := holder e;
     memory_limit := memory_limit e;
     hit_memory_limit := hit_memory_limit e; root := root e;
     last_heap := last_heap e; rejected_promise_error := x;
     specifics := specifics e; terminated := terminated e |}.

Definition set_specifics (x : list (option Value)) (e : IsolateEnvironment)
  : IsolateEnvironment :=
  {| isolate := isolate e; holder := holder e;
     memory_limit := memory_limit e;
     hit_memory_limit := hit_memory_limit e; root := root e;
     last_heap := last_heap e;
     rejected_promise_error := rejected_promise_error e; specifics := x;
     terminated := terminated e |}.

Definition set_terminated (x : bool) (e : IsolateEnvironment)
  : IsolateEnvironment :=
  {| isolate := isolate e; holder := holder e;
     memory_limit := memory_limit e;
     hit_memory_limit := hit_memory_limit e; root := root e;
     last_heap := last_heap e;
     rejected_promise_error := rejected_promise_error e;
     specifics := specifics e; terminated := x |}.

(** *** [IsolateEnvironment::ExecutorLock] *)

(** A live [ExecutorLock] object: the environment its [locker] and
    [isolate_scope] are for, and the member [last]. *)
Record ExecutorLock := {
  locked : addr;
  last : option addr
}.

(** One thread: the thread-local [ExecutorLock::current], and the
    [ExecutorLock] objects alive on its stack, innermost first. *)
Record Thread := {
  current : option addr;
  scopes : list ExecutorLock
}.

(** [ExecutorLock::GetCurrent] and [IsolateEnvironment::GetCurrent]. *)
Definition GetCurrent (th : Thread) : option addr := current th.

(** Modelled from the spec: the constructor of [ExecutorLock], whose body is
    in [environment.cc]. "Takes the engine's coarse lock for this isolate,
    enters it, opens a handle scope, and swaps the [current] thread-local
    from whatever it was (typically none or the root) to this environment,
    remembering the previous value." *)
Definition ExecutorLock_ctor (env : addr) (th : Thread) : Thread :=
  {| current := Some env;
     scopes := {| locked := env; last := current th |} :: scopes th |}.

(** Modelled from the spec: the destructor of [ExecutorLock]. "Restores the
    previous value, closes the handle scope, exits, and releases the engine
    lock." The innermost object is the one destroyed: they are stack
    objects, neither copyable nor assignable. *)
Definition ExecutorLock_dtor (th : Thread) : Thread :=
  match scopes th with
  | [] => th
  | l :: rest => {| current := last l; scopes := rest |}
  end.

(** Modelled from the spec: [ExecutorLock::Init], which runs once on the
    host thread before any lock is taken: the thread starts with the root
    environment as its current one. A worker thread starts with none. *)
Definition initial_thread (base : option addr) : Thread :=
  {| current := base; scopes := [] |}.

(** *** [IsolateEnvironment::IsolateSpecific] *)

(** An [IsolateSpecific<T>] is its key, issued by the counter
    [specifics_count]. *)
Record IsolateSpecific := { key : nat }.

(** The loop [while (v.size() <= key) v.emplace_back(empty)] of [Set], with
    a bound on the number of iterations. [reserve] changes the capacity
    only. *)
Fixpoint emplace_until (fuel : nat) (key : nat) (v : list (option Value))
  : list (option Value) :=
  match fuel with
  | O => v
  | S fuel' =>
      if decide (length v <= key)%nat
      then emplace_until fuel' key (v ++ [None])
      else v
  end.

(** The private template [Deref<L, V, S>] at [S = &specifics], after
    [isolate] is bound. *)
Definition Deref_in (s : IsolateSpecific) (isolate : IsolateEnvironment)
  : option Value :=
  if decide (key s < length (specifics isolate))%nat then
    match specifics isolate !! key s with
    | Some (Some v) => Some v
    | _ => None
    end
  else None.

(** The private template [Set<L, V, S>] at [S = &specifics], after
    [isolate] is bound. The bound [S (key s)] is never reached: see
    [emplace_until_exits]. The vector is a list with no bound on its
    length: the [std::length_error] and the [std::bad_alloc] of [reserve]
    and [emplace_back] on a key the memory cannot hold are not
    modelled. *)
Definition Set_in (s : IsolateSpecific) (handle : Value)
  (isolate : IsolateEnvironment) : IsolateEnvironment :=
  let v := specifics isolate in
  let v :=
    if decide (length v <= key s)%nat
    then emplace_until (S (key s)) (key s) v
    else v in
  set_specifics (<[key s := Some handle]> v) isolate.

(** [IsolateSpecific<T>::Deref]: [isolate] is [*ExecutorLock::GetCurrent()]. *)
Definition Deref (s : IsolateSpecific) (th : Thread) (p : Process)
  : Completion (option Value) :=
  isolate ← deref (isolates p) (GetCurrent th);
  Return (Deref_in s isolate).

(** [IsolateSpecific<T>::Set]. *)
Definition Set_ (s : IsolateSpecific) (handle : Value) (th : Thread)
  (p : Process) : Completion Process :=
  isolate ← deref (isolates p) (GetCurrent th);
  match GetCurrent th with
  | Some a => Return (store_isolate a (Set_in s handle isolate) p)
  | None => Die NullDereference
  end.

(** A sequence of writes on one thread. *)
Fixpoint Set_all (ws : list (IsolateSpecific * Value)) (th : Thread)
  (p : Process) : Completion Process :=
  match ws with
  | [] => Return p
  | (s, v) :: ws' => p' ← Set_ s v th p; Set_all ws' th p'
  end.

(** The writes of [Set_all], on the environment. *)
Definition writes (ws : list (IsolateSpecific * Value))
  (e : IsolateEnvironment) : IsolateEnvironment :=
  foldl (fun e w => Set_in w.1 w.2 e) e ws.

(** *** Construction, termination and the memory limit *)

(** Modelled from the spec: the two constructors of [IsolateEnvironment],
    whose bodies are in [environment.cc]. The members take the default
    initializers of the class ([memory_limit = 0], [hit_memory_limit =
    false], [terminated = false], empty vectors, a null [holder]);
    [wrap_host] "constructs the root environment around the already-existing
    host isolate", [new] "constructs a fresh isolate" with its memory
    limit. *)
Definition constructed (is_root : bool) (limit : Z) : IsolateEnvironment :=
  {| isolate := empty_isolate; holder := None; memory_limit := limit;
     hit_memory_limit := false; root := is_root;
     last_heap := {| used_heap_size := 0; external_memory := 0 |};
     rejected_promise_error := None; specifics := []; terminated := false |}.

Definition wrap_host : IsolateEnvironment := constructed true 0.

Definition new (limit : Z) : IsolateEnvironment := constructed false limit.

(** [IsolateEnvironment::New]: the factory. The two [make_shared] take
    addresses that are not in use; the result is the holder. *)
Definition New (env : IsolateEnvironment) (p : Process) : addr * Process :=
  let isolate := fresh (dom (isolates p)) in
  let p := store_isolate isolate env p in
  let holder := fresh (dom (holders p)) in
  let p := store_holder holder {| holder_isolate := Some isolate |} p in
  (holder, store_isolate isolate (set_holder (Some holder) env) p).

(** [IsolateEnvironment::GetMemoryLimit]. *)
Definition GetMemoryLimit (e : IsolateEnvironment) : Z := memory_limit e.

(** [IsolateEnvironment::DidHitMemoryLimit]. *)
Definition DidHitMemoryLimit (e : IsolateEnvironment) : bool :=
  hit_memory_limit e.

(** [IsolateEnvironment::Terminate], called on the environment at [this]. *)
Definition Terminate (this : addr) (p : Process) : Completion Process :=
  env ← deref (isolates p) (Some this);
  _ ← assert (negb (root env));
  let env := set_terminated true env in
  let env := set_isolate (TerminateExecution (isolate env)) env in
  let p := store_isolate this env p in
  _ ← deref (holders p) (holder env);
  match holder env with
  | Some h => Return (store_holder h {| holder_isolate := None |} p)
  | None => Die NullDereference
  end.

(** Modelled from the spec: [GCEpilogueCallback], whose body is in
    [environment.cc]. "After every major GC on a non-root isolate, read heap
    statistics: if [used_heap_size + external_memory > memory_limit], set
    [hit_memory_limit = true] and request termination. Record the latest
    stats as [last_heap]." *)
Definition GCEpilogueCallback (this : addr) (stats : HeapStatistics)
  (p : Process) : Completion Process :=
  env ← deref (isolates p) (Some this);
  if root env then Return p
  else
    let env := set_last_heap stats env in
    if decide (used_heap_size stats + external_memory stats
               > memory_limit env)
    then Terminate this (store_isolate this (set_hit_memory_limit true env) p)
    else Return (store_isolate this env p).

(** Modelled from the spec: [OOMErrorCallback]. "The environment is marked
    [hit_memory_limit = true] and terminated." *)
Definition OOMErrorCallback (this : addr) (p : Process)
  : Completion Process :=
  env ← deref (isolates p) (Some this);
  Terminate this (store_isolate this (set_hit_memory_limit true env) p).

(** Modelled from the spec: [PromiseRejectCallback]. "Stashes the rejection
    as [rejected_promise_error] (only the first one between epilogues)." *)
Definition PromiseRejectCallback (this : addr) (rejection : Value)
  (p : Process) : Completion Process :=
  env ← deref (isolates p) (Some this);
  match rejected_promise_error env with
  | Some _ => Return p
  | None =>
      Return (store_isolate this
                (set_rejected_promise_error (Some rejection) env) p)
  end.

(** Modelled from the spec: [TaskEpilogue]. "Raises HeapLimit if the
    watchdog tripped; if a pending unhandled promise rejection was stashed,
    rethrows it now as a runtime error", and the stash is cleared. The
    process after the call is returned next to the outcome: an exception
    leaves a process behind. *)
Definition TaskEpilogue (this : addr) (p : Process)
  : Completion unit * Process :=
  match deref (isolates p) (Some this) with
  | Return env =>
      if hit_memory_limit env then (Throw (Failure HeapLimit), p)
      else
        match rejected_promise_error env with
        | Some _ =>
            (Throw js_runtime_error,
             store_isolate this (set_rejected_promise_error None env) p)
        | None => (Return tt, p)
        end
  | Throw e => (Throw e, p)
  | Die w => (Die w, p)
  end.

(** ** [external_copy.h] *)

(** The classes derived from [ExternalCopy]. [ExternalCopyTemplate<T, V>]
    is shown at [<v8::Boolean, bool>] and [<v8::Number, double>]; strings
    have the specialization [ExternalCopyString], whose vector is shared
    between the isolates that receive it. *)
Inductive ExternalCopy :=
  | ExternalCopyBoolean (value : bool)
  | ExternalCopyNumber (value : double)
  | ExternalCopyString (value : list uint16)
  | ExternalCopySerialized (buffer : list uint8)
  | ExternalCopyError (error_type : ErrorType.t) (message stack : list uint16)
  | ExternalCopyNull
  | ExternalCopyUndefined
  | ExternalCopyDate (value : double)
  | ExternalCopyArrayBuffer (value : list uint8)
  | ExternalCopyArrayBufferView (buffer : list uint8) (type : ViewType.t).

(** A transferable: an external copy, or a handle to an object that stays
    in the isolate it lives in. *)
Inductive Transferable :=
  | External (copy : ExternalCopy)
  | Handle (origin : addr) (ident : nat).

(** The bodies of [Size] and [WorstCaseHeapSize] that the header only
    declares (they are in [external_copy.cc]). *)
Class ExternalCopyCc := {
  Size_cc : ExternalCopy -> Z;
  WorstCaseHeapSize_cc : ExternalCopy -> Z
}.

(** [ExternalCopy::Size], a [size_t]: [sizeof(V)] for the template, two
    bytes a code unit for a string. *)
Definition Size `{ExternalCopyCc} (c : ExternalCopy) : Z :=
  match c with
  | ExternalCopyBoolean _ => 1
  | ExternalCopyNumber _ => 8
  | ExternalCopyString value => (Z.of_nat (length value) * 2) mod 2 ^ 64
  | _ => Size_cc c
  end.

(** [ExternalCopy::WorstCaseHeapSize]. *)
Definition WorstCaseHeapSize `{ExternalCopyCc} (c : ExternalCopy) : Z :=
  match c with
  | ExternalCopyBoolean _ | ExternalCopyNumber _ => 24
  | ExternalCopyString _ => 32
  | _ => WorstCaseHeapSize_cc c
  end.

(** [ExternalCopyString::CopyInto]. *)
Definition ExternalCopyString_CopyInto `{Engine} (value : list uint16)
  (i : Isolate) : Completion Value * Isolate :=
  if decide (value = []) then (Return String_Empty, i)
  else
    match NewExternalTwoByte value i with
    | (Return handle, i) => (Unmaybe handle, i)
    | (Throw e, i) => (Throw e, i)
    | (Die w, i) => (Die w, i)
    end.

(** A fresh address for a backing store. *)
Definition new_store (contents : list uint8) (i : Isolate) : addr * Isolate :=
  let a := fresh (dom (buffers i)) in
  (a, set_buffers
        (<[a := {| contents := contents; neutered := false |}]> (buffers i))
        i).

(** A [double] is its 64 bits. It is a NaN when the exponent bits are all
    set and the fraction is not zero, whatever the sign. *)
Definition is_nan (d : double) : bool :=
  bool_decide (0x7FF0000000000000 < d mod 2 ^ 63).

Definition canonical_nan : double := 0x7FF8000000000000.

(** [v8::Number::New(isolate, value)]: the engine keeps one NaN, and a
    NaN given with another sign or payload becomes that one. *)
Definition Number_New (value : double) : Value :=
  Number (if is_nan value then canonical_nan else value).

(** [ExternalCopy::CopyInto]. The template and the string specialization
    are in the header.

    Modelled from the spec: the other variants, whose bodies are in
    [external_copy.cc]. Each materializes the value it was copied from:
    null, undefined, a date, an error of the recorded kind with message
    and stack, an array buffer or view over the recorded bytes, and for a
    serialized copy what the engine's deserializer reads from the
    buffer. *)
Definition CopyInto `{Engine} (c : ExternalCopy) (transfer_in : bool)
  (i : Isolate) : Completion Value * Isolate :=
  match c with
  | ExternalCopyBoolean value => (Return (Boolean value), i)
  | ExternalCopyNumber value =>
      (Return (Number_New value), allocate (Number_New value) i)
  | ExternalCopyString value => ExternalCopyString_CopyInto value i
  | ExternalCopySerialized buffer =>
      match ReadValue buffer with
      | Some v => (Return v, allocate v i)
      | None => (Throw js_runtime_error, i)
      end
  | ExternalCopyError error_type message stack =>
      let v := ErrorObject error_type message stack in
      (Return v, allocate v i)
  | ExternalCopyNull => (Return Null, i)
  | ExternalCopyUndefined => (Return Undefined, i)
  | ExternalCopyDate value => (Return (Date value), allocate (Date value) i)
  | ExternalCopyArrayBuffer value =>
      let '(a, i) := new_store value i in
      (Return (ArrayBuffer a), allocate (ArrayBuffer a) i)
  | ExternalCopyArrayBufferView buffer type =>
      let '(a, i) := new_store buffer i in
      (Return (ArrayBufferView type a), allocate (ArrayBufferView type a) i)
  end.

(** Modelled from the spec: the constructor of [HeapCheck], whose body is
    in [environment.cc]. "Before materializing a transferable of
    [worst_case_heap_size() = W] bytes, if [last_heap.used_heap + W >
    memory_limit], a minor GC is hinted; if still over, fail with
    HeapLimit"; "for any transferable whose worst-case size plus current
    used heap exceeds the cap, [transfer_in] fails with HeapLimit".
    [after_gc] is the statistics the engine would report after the
    hinted collection: they are not recorded, since [last_heap] is
    written by the epilogue of a major collection only, and what the check
    compares is [last_heap]. The root isolate has no memory limit: it is
    "never heap-capped". *)
Definition HeapCheck (env : IsolateEnvironment) (expected_size : Z)
  (after_gc : HeapStatistics) : Completion unit :=
  if root env then Return tt
  else if decide (used_heap_size (last_heap env) + expected_size
                  > memory_limit env)
  then Throw (Failure HeapLimit)
  else Return tt.

(** Modelled from the spec: [ExternalCopy::CopyIntoCheckHeap], whose body
    is in [external_copy.cc]: the heap guard check with
    [WorstCaseHeapSize()], then [CopyInto], in the current isolate. The
    process after the call is returned next to the outcome. *)
Definition CopyIntoCheckHeap `{Engine} `{ExternalCopyCc} (c : ExternalCopy)
  (transfer_in : bool) (after_gc : HeapStatistics) (th : Thread)
  (p : Process) : Completion Value * Process :=
  match GetCurrent th, deref (isolates p) (GetCurrent th) with
  | Some a, Return env =>
      match HeapCheck env (WorstCaseHeapSize c) after_gc with
      | Return _ =>
          let '(r, i) := CopyInto c transfer_in (isolate env) in
          (r, store_isolate a (set_isolate i env) p)
      | Throw e => (Throw e, p)
      | Die w => (Die w, p)
      end
  | _, _ => (Die NullDereference, p)
  end.

(** Modelled from the spec: [ExternalCopy::TransferIn]: "materializes into
    the current isolate"; "it first runs the heap guard check using
    [worst_case_heap_size()]; if that would exceed the limit, fails with
    HeapLimit". *)
Definition TransferIn `{Engine} `{ExternalCopyCc} (c : ExternalCopy)
  (after_gc : HeapStatistics) (th : Thread) (p : Process)
  : Completion Value * Process :=
  CopyIntoCheckHeap c true after_gc th p.

(** [ExternalCopy::CopyIfPrimitive]: "If you give this a primitive
    [v8::Value] (except Symbol) it will return a ExternalCopy for you.
    Otherwise it returns nullptr." The constructors of the template read
    the value out of the handle; the one of the string copies its code
    units. *)
Definition CopyIfPrimitive (value : Value) : option ExternalCopy :=
  match value with
  | Boolean b => Some (ExternalCopyBoolean b)
  | Number d => Some (ExternalCopyNumber d)
  | String units => Some (ExternalCopyString units)
  | Null => Some ExternalCopyNull
  | Undefined => Some ExternalCopyUndefined
  | _ => None
  end.

(** Modelled from the spec: [ExternalCopy::CopyIfPrimitiveOrError], "same
    plus error objects". *)
Definition CopyIfPrimitiveOrError (value : Value) : option ExternalCopy :=
  match value with
  | ErrorObject kind message stack =>
      Some (ExternalCopyError kind message stack)
  | _ => CopyIfPrimitive value
  end.

(** Modelled from the spec: [ExternalCopyArrayBuffer::Transfer], whose body
    is in [external_copy.cc]: it "moves ownership out of a source
    array-buffer, leaving the source detached". The result is the bytes
    the new [ExternalCopyArrayBuffer] owns. *)
Definition Transfer (store : addr) (i : Isolate)
  : Completion (list uint8) * Isolate :=
  match buffers i !! store with
  | None => (Die NullDereference, i)
  | Some b =>
      (Return (contents b),
       set_buffers
         (<[store := {| contents := []; neutered := true |}]> (buffers i)) i)
  end.

(** Modelled from the spec: the constructor of [ExternalCopyArrayBuffer]
    that copies the bytes and leaves the source as it is. *)
Definition copy_bytes (store : addr) (i : Isolate)
  : Completion (list uint8) :=
  match buffers i !! store with
  | None => Die NullDereference
  | Some b => Return (contents b)
  end.

(** The values the structured-clone serializer accepts: a function, a
    symbol, or a native object outside the handle set, anywhere in the
    value, is refused. *)
Fixpoint cloneable (v : Value) : bool :=
  match v with
  | Symbol _ | Function _ => false
  | NativeObject in_handle_set _ => in_handle_set
  | Array elements => forallb cloneable elements
  | Object properties => forallb (fun p => cloneable p.2) properties
  | _ => true
  end.

(** The value has a transferable representation. *)
Definition has_transferable_representation (v : Value) : bool :=
  cloneable v.

(** The values of JSON: null, booleans, numbers, strings, and arrays and
    plain objects of them. NaN is not a number of JSON. *)
Fixpoint json_cloneable (v : Value) : bool :=
  match v with
  | Null | Boolean _ | String _ => true
  | Number d => negb (is_nan d)
  | Array elements => forallb json_cloneable elements
  | Object properties => forallb (fun p => json_cloneable p.2) properties
  | _ => false
  end.

(** What the code relies on from the engine's serializer: it writes the
    values that can be cloned and no others, and what it wrote for a value
    of JSON reads back as that value. *)
Class StructuredClone `{Engine} : Prop := {
  WriteValue_cloneable v : is_Some (WriteValue v) <-> cloneable v = true;
  ReadValue_WriteValue v buffer :
    json_cloneable v = true -> WriteValue v = Some buffer ->
    ReadValue buffer = Some v
}.


(** The array buffers a value refers to directly are in the isolate. *)
Definition valid_in (i : Isolate) (v : Value) : Prop :=
  match v with
  | ArrayBuffer a | ArrayBufferView _ a => is_Some (buffers i !! a)
  | _ => True
  end.

(** The array buffers reachable from a value. *)
Fixpoint array_buffers (v : Value) : list addr :=
  match v with
  | ArrayBuffer a | ArrayBufferView _ a => [a]
  | Array elements => flat_map array_buffers elements
  | Object properties => flat_map (fun p => array_buffers p.2) properties
  | _ => []
  end.

(** Every buffer of the list is moved out of its source. *)
Definition detach_all (stores : list addr) (i : Isolate) : Isolate :=
  foldr (fun a i => (Transfer a i).2) i stores.

(** Modelled from the spec: [ExternalCopy::Copy], whose body is in
    [external_copy.cc]. "Produces a transferable from any engine value.
    Fails with NotSerializable if the value has no transferable
    representation (functions, native objects outside the handle set,
    symbols other than well-known). If [transfer_out] is true, array
    buffers reachable from [value] are moved (source detached) rather than
    copied." A [Symbol] is a symbol other than the well-known ones; what
    a well-known symbol is copied to the headers do not show (no
    transferable holds a symbol) and is not modelled. [origin] is the
    isolate the value lives in, [i] its engine state. Of an array or an
    object that is moved, the buffers it reaches are detached once the
    serializer has written it. *)
Definition Copy `{Engine} (value : Value) (transfer_out : bool)
  (origin : addr) (i : Isolate) : Completion Transferable * Isolate :=
  match CopyIfPrimitive value with
  | Some c => (Return (External c), i)
  | None =>
      match value with
      | Date time => (Return (External (ExternalCopyDate time)), i)
      | ErrorObject kind message stack =>
          (Return (External (ExternalCopyError kind message stack)), i)
      | ArrayBuffer a =>
          let '(moved, i') := Transfer a i in
          if transfer_out
          then (bytes ← moved;
                Return (External (ExternalCopyArrayBuffer bytes)), i')
          else (bytes ← copy_bytes a i;
                Return (External (ExternalCopyArrayBuffer bytes)), i)
      | ArrayBufferView type a =>
          let '(moved, i') := Transfer a i in
          if transfer_out
          then (bytes ← moved;
                Return (External (ExternalCopyArrayBufferView bytes type)), i')
          else (bytes ← copy_bytes a i;
                Return (External (ExternalCopyArrayBufferView bytes type)), i)
      | NativeObject true ident => (Return (Handle origin ident), i)
      | Array _ | Object _ =>
          match WriteValue value with
          | Some buffer =>
              (Return (External (ExternalCopySerialized buffer)),
               if transfer_out then detach_all (array_buffers value) i
               else i)
          | None => (Throw (Failure NotSerializable), i)
          end
      | _ => (Throw (Failure NotSerializable), i)
      end
  end.

(** ** The operations on an environment, as a transition system *)

(** The operations that reach the members of an environment: the callbacks
    of the engine, the task epilogue, termination, a transfer into the
    isolate and a write to a keyed slot. *)
Inductive Operation :=
  | OpGCEpilogue (stats : HeapStatistics)
  | OpOOMError
  | OpPromiseReject (rejection : Value)
  | OpTaskEpilogue
  | OpTerminate
  | OpTransferIn (c : ExternalCopy) (after_gc : HeapStatistics)
  | OpSet (s : IsolateSpecific) (handle : Value).

(** The process a call leaves behind, whether it returned or threw; none
    when the call does not come back. *)
Definition after {A : Type} (c : Completion A) (p : Process)
  : option Process :=
  match c with
  | Die _ => None
  | _ => Some p
  end.

Definition after_update (c : Completion Process) (p : Process)
  : option Process :=
  match c with
  | Return p' => Some p'
  | Throw _ => Some p
  | Die _ => None
  end.

(** One operation on the environment at [target]. A transfer and a slot
    write run on a thread that holds its executor lock. *)
Definition perform `{Engine} `{ExternalCopyCc} (target : addr)
  (op : Operation) (p : Process) : option Process :=
  let th := ExecutorLock_ctor target (initial_thread None) in
  match op with
  | OpGCEpilogue stats => after_update (GCEpilogueCallback target stats p) p
  | OpOOMError => after_update (OOMErrorCallback target p) p
  | OpPromiseReject v => after_update (PromiseRejectCallback target v p) p
  | OpTaskEpilogue => let '(c, p') := TaskEpilogue target p in after c p'
  | OpTerminate => after_update (Terminate target p) p
  | OpTransferIn c after_gc =>
      let '(r, p') := TransferIn c after_gc th p in after r p'
  | OpSet s handle => after_update (Set_ s handle th p) p
  end.

Fixpoint perform_all `{Engine} `{ExternalCopyCc}
  (ops : list (addr * Operation)) (p : Process) : option Process :=
  match ops with
  | [] => Some p
  | (target, op) :: ops => p' ← perform target op p; perform_all ops p'
  end.

(** Every environment of [p] is still in [p'], and those that had hit the
    memory limit still have. *)
Definition keeps_limit_flags (p p' : Process) : Prop :=
  forall (a : addr) (e : IsolateEnvironment),
    isolates p !! a = Some e ->
    exists e' : IsolateEnvironment,
      isolates p' !! a = Some e' /\
      (DidHitMemoryLimit e = true -> DidHitMemoryLimit e' = true).

(** ** More of the headers *)

(** The constructor of [IsolateSpecific]: the key is the value of the
    static counter [specifics_count], a [size_t], which is then
    incremented. The result is the object and the counter afterwards. *)
Definition IsolateSpecific_ctor (specifics_count : Z) : IsolateSpecific * Z :=
  ({| key := Z.to_nat specifics_count |}, (specifics_count + 1) mod 2 ^ 64).

(** [n] objects constructed one after the other. *)
Fixpoint IsolateSpecific_ctors (n : nat) (specifics_count : Z)
  : list IsolateSpecific * Z :=
  match n with
  | O => ([], specifics_count)
  | S n =>
      let '(s, c) := IsolateSpecific_ctor specifics_count in
      let '(ss, c) := IsolateSpecific_ctors n c in
      (s :: ss, c)
  end.

(** [IsolateEnvironment::GetCurrentHolder]: the holder of
    [*ExecutorLock::GetCurrent()]. *)
Definition GetCurrentHolder (th : Thread) (p : Process)
  : Completion (option addr) :=
  env ← deref (isolates p) (GetCurrent th);
  Return (holder env).

(** The calls of the header that change the process: the factory,
    [Terminate], and a write to a keyed slot on some thread. *)
Inductive Call :=
  | CallNew (env : IsolateEnvironment)
  | CallTerminate (this : addr)
  | CallSet (th : Thread) (s : IsolateSpecific) (handle : Value).

Definition call (c : Call) (p : Process) : Completion Process :=
  match c with
  | CallNew env => Return (New env p).2
  | CallTerminate this => Terminate this p
  | CallSet th s handle => Set_ s handle th p
  end.

Fixpoint calls (cs : list Call) (p : Process) : Completion Process :=
  match cs with
  | [] => Return p
  | c :: cs => p' ← call c p; calls cs p'
  end.

Definition empty_process : Process := {| isolates := ∅; holders := ∅ |}.

(** A holder that points to an environment is the holder of that
    environment. *)
Definition holders_consistent (p : Process) : Prop :=
  forall (h a : addr),
    holders p !! h = Some {| holder_isolate := Some a |} ->
    exists e : IsolateEnvironment,
      isolates p !! a = Some e /\ holder e = Some h.

(** Every environment has a holder, and the holder is alive. *)
Definition environments_held (p : Process) : Prop :=
  forall (a : addr) (e : IsolateEnvironment),
    isolates p !! a = Some e ->
    exists h : addr, holder e = Some h /\ is_Some (holders p !! h).

(** The constructor of [js_error<F>], for [F] one of [v8::Exception::Error],
    [TypeError] and [RangeError]: the message, as a C string, becomes a
    one-byte string, and the error made of it is thrown in the isolate;
    nothing is thrown here when the engine gives no string. The result is
    the exception thrown; [stack] is the stack the engine records in the
    error. *)
Definition js_error `{Engine} (F : ErrorType.t) (message : string)
  (stack : list uint16) : Completion (option Value) :=
  maybe_message ← NewFromOneByte message;
  match maybe_message with
  | Some message_handle => Return (Some (ErrorObject F message_handle stack))
  | None => Return None
  end.

(** A [char] converted to [uint16_t]: where [char] is signed, a byte from
    128 on is negative and wraps around modulo 2^16. *)
Definition char_to_uint16 (char_is_signed : bool) (c : Ascii.ascii) : uint16 :=
  let n := Z.of_N (Ascii.N_of_ascii c) in
  if char_is_signed && bool_decide (128 <= n)
  then (n - 256) mod 65536
  else n.

(** The constructor of [ExternalCopyString] from a [std::string]: the
    vector is made from [message.begin()] to [message.end()], one code
    unit for each [char]. *)
Fixpoint ExternalCopyString_of_message (char_is_signed : bool)
  (message : string) : list uint16 :=
  match message with
  | EmptyString => []
  | String.String c rest =>
      char_to_uint16 char_is_signed c
      :: ExternalCopyString_of_message char_is_signed rest
  end.

(** ** A reference engine

    One engine that meets the interface, for running the definitions: the
    deserializer reads a simple prefix code, strings are rendered in UTF-8,
    and a string has at most [2^28 - 16] code units. *)
Module Reference.

(** A positive number, bit by bit, least significant first; 2 ends it. *)
Fixpoint enc_pos (p : positive) : list uint8 :=
  match p with
  | xO p => 0 :: enc_pos p
  | xI p => 1 :: enc_pos p
  | xH => [2]
  end.

Definition enc_Z (z : Z) : list uint8 :=
  match z with
  | Z0 => [3]
  | Zpos p => 4 :: enc_pos p
  | Zneg p => 5 :: enc_pos p
  end.

(** A sequence: 6 before each element, 7 at the end. *)
Definition enc_seq {A : Type} (enc : A -> list uint8) (l : list A)
  : list uint8 :=
  concat (map (fun x => 6 :: enc x) l) ++ [7].

Definition enc_kind (k : ErrorType.t) : uint8 := ErrorType.to_Z k.

Definition enc_view (t : ViewType.t) : uint8 :=
  match t with
  | ViewType.Uint8 => 0 | ViewType.Uint8Clamped => 1 | ViewType.Int8 => 2
  | ViewType.Uint16 => 3 | ViewType.Int16 => 4 | ViewType.Uint32 => 5
  | ViewType.Int32 => 6 | ViewType.Float32 => 7 | ViewType.Float64 => 8
  | ViewType.DataView => 9
  end.

(** The bytes of a value; a tag comes first. *)
Fixpoint write (v : Value) : list uint8 :=
  match v with
  | Undefined => [10]
  | Null => [11]
  | Boolean b => [12; if b then 1 else 0]
  | Number d => 13 :: enc_Z d
  | String units => 14 :: enc_seq enc_Z units
  | Date time => 15 :: enc_Z time
  | Array elements =>
      16 :: concat (map (fun x => 6 :: write x) elements) ++ [7]
  | Object properties =>
      17 :: concat (map (fun p => 6 :: enc_seq enc_Z p.1 ++ write p.2)
                      properties) ++ [7]
  | ErrorObject kind message stack =>
      18 :: enc_kind kind :: enc_seq enc_Z message ++ enc_seq enc_Z stack
  | ArrayBuffer store => 19 :: enc_Z (Z.of_nat store)
  | ArrayBufferView type store => 20 :: enc_view type :: enc_Z (Z.of_nat store)
  | NativeObject _ ident => 21 :: enc_Z (Z.of_nat ident)
  | Symbol _ | Function _ => []
  end.

Fixpoint dec_pos (bs : list uint8) : option (positive * list uint8) :=
  match bs with
  | 0 :: r => '(p, r) ← dec_pos r; Some (xO p, r)
  | 1 :: r => '(p, r) ← dec_pos r; Some (xI p, r)
  | 2 :: r => Some (xH, r)
  | _ => None
  end.

Definition dec_Z (bs : list uint8) : option (Z * list uint8) :=
  match bs with
  | 3 :: r => Some (0, r)
  | 4 :: r => '(p, r) ← dec_pos r; Some (Zpos p, r)
  | 5 :: r => '(p, r) ← dec_pos r; Some (Zneg p, r)
  | _ => None
  end.

(** A sequence of numbers. Every step takes a byte, so the length of the
    input is fuel enough. *)
Fixpoint dec_units (fuel : nat) (bs : list uint8)
  : option (list Z * list uint8) :=
  match fuel with
  | O => None
  | S fuel =>
      match bs with
      | 7 :: r => Some ([], r)
      | 6 :: r =>
          '(z, r) ← dec_Z r;
          '(zs, r) ← dec_units fuel r;
          Some (z :: zs, r)
      | _ => None
      end
  end.

Definition dec_bool (b : uint8) : option bool :=
  match b with
  | 0 => Some false
  | 1 => Some true
  | _ => None
  end.

(** The values of JSON are read back; the other tags are refused. *)
Fixpoint read (fuel : nat) (bs : list uint8) : option (Value * list uint8) :=
  match fuel with
  | O => None
  | S fuel =>
      match bs with
      | 11 :: r => Some (Null, r)
      | 12 :: b :: r => b ← dec_bool b; Some (Boolean b, r)
      | 13 :: r => '(d, r) ← dec_Z r; Some (Number d, r)
      | 14 :: r => '(u, r) ← dec_units fuel r; Some (String u, r)
      | 16 :: r => '(vs, r) ← read_elements fuel r; Some (Array vs, r)
      | 17 :: r => '(ps, r) ← read_properties fuel r; Some (Object ps, r)
      | _ => None
      end
  end
with read_elements (fuel : nat) (bs : list uint8)
  : option (list Value * list uint8) :=
  match fuel with
  | O => None
  | S fuel =>
      match bs with
      | 7 :: r => Some ([], r)
      | 6 :: r =>
          '(v, r) ← read fuel r;
          '(vs, r) ← read_elements fuel r;
          Some (v :: vs, r)
      | _ => None
      end
  end
with read_properties (fuel : nat) (bs : list uint8)
  : option (list (list uint16 * Value) * list uint8) :=
  match fuel with
  | O => None
  | S fuel =>
      match bs with
      | 7 :: r => Some ([], r)
      | 6 :: r =>
          '(k, r) ← dec_units fuel r;
          '(v, r) ← read fuel r;
          '(ps, r) ← read_properties fuel r;
          Some ((k, v) :: ps, r)
      | _ => None
      end
  end.

(** One code point in UTF-8. *)
Definition byte (z : Z) : Ascii.ascii := Ascii.ascii_of_N (Z.to_N z).

Definition utf8_point (c : Z) : string :=
  if decide (c < 128) then String.String (byte c) EmptyString
  else if decide (c < 2048) then
    String.String (byte (192 + c / 64))
      (String.String (byte (128 + c mod 64)) EmptyString)
  else if decide (c < 65536) then
    String.String (byte (224 + c / 4096))
      (String.String (byte (128 + (c / 64) mod 64))
         (String.String (byte (128 + c mod 64)) EmptyString))
  else
    String.String (byte (240 + c / 262144))
      (String.String (byte (128 + (c / 4096) mod 64))
         (String.String (byte (128 + (c / 64) mod 64))
            (String.String (byte (128 + c mod 64)) EmptyString))).

Definition is_pair (hi lo : Z) : bool :=
  bool_decide (55296 <= hi < 56320 /\ 56320 <= lo < 57344).

(** UTF-16 code units in UTF-8; a surrogate pair is one code point. *)
Fixpoint utf8 (units : list uint16) : string :=
  match units with
  | [] => EmptyString
  | u :: rest =>
      match rest with
      | lo :: rest' =>
          if is_pair u lo
          then utf8_point (65536 + (u - 55296) * 1024 + (lo - 56320))
                 +:+ utf8 rest'
          else utf8_point u +:+ utf8 rest
      | [] => utf8_point u
      end
  end.

(** The string a value converts to, for the values whose conversion
    needs no arithmetic on doubles; a symbol does not convert. *)
Definition to_utf8 (v : Value) : option string :=
  match v with
  | String units => Some (utf8 units)
  | Undefined => Some "undefined"
  | Null => Some "null"
  | Boolean true => Some "true"
  | Boolean false => Some "false"
  | _ => None
  end.

Definition read_all (bs : list uint8) : option Value :=
  match read (S (length bs)) bs with
  | Some (v, []) => Some v
  | _ => None
  end.

Global Instance engine : Engine := {|
  kMaxLength := 2 ^ 28 - 16;
  Utf8Value := to_utf8;
  WriteValue := fun v => if cloneable v then Some (write v) else None;
  ReadValue := read_all
|}.

(** Sizes for the variants whose bodies are not in the header: the bytes
    held, and a fixed cost for the small ones. *)
Global Instance sizes : ExternalCopyCc := {|
  Size_cc := fun c =>
    match c with
    | ExternalCopySerialized buffer => Z.of_nat (length buffer)
    | ExternalCopyArrayBuffer value => Z.of_nat (length value)
    | ExternalCopyArrayBufferView buffer _ => Z.of_nat (length buffer)
    | ExternalCopyError _ message stack =>
        Z.of_nat (length message + length stack) * 2
    | ExternalCopyDate _ => 8
    | _ => 0
    end;
  WorstCaseHeapSize_cc := fun c =>
    match c with
    | ExternalCopySerialized buffer => Z.of_nat (length buffer)
    | ExternalCopyArrayBuffer value => Z.of_nat (length value)
    | ExternalCopyArrayBufferView buffer _ => Z.of_nat (length buffer) + 128
    | ExternalCopyError _ _ _ => 128
    | ExternalCopyDate _ => 24
    | _ => 16
    end
|}.

End Reference.

(** * Properties *)

(** ** Per-isolate keyed slots *)

Section isolate_specific.
Implicit Types (s : IsolateSpecific) (e : IsolateEnvironment).
Implicit Types (v : list (option Value)) (h : Value).

(** The loop appends empty slots, as many as are missing or as the bound
    allows. *)
Lemma emplace_until_replicate fuel k v :
  emplace_until fuel k v
  = v ++ replicate (fuel `min` (S k - length v)) None.
Proof.
  revert v. induction fuel as [|fuel IH]; intros v.
  - simpl. by rewrite app_nil_r.
  - cbn [emplace_until]. case_decide as Hle.
    + rewrite IH, length_app. cbn [length].
      replace (S fuel `min` (S k - length v))%nat
        with (S (fuel `min` (S k - (length v + 1))))%nat by lia.
      cbn [replicate]. by rewrite <- app_assoc.
    + replace (S fuel `min` (S k - length v))%nat with 0%nat by lia.
      by rewrite app_nil_r.
Qed.

(** With the bound [Set] gives it, the loop ends because its condition is
    false: the vector has a slot at the key. *)
Lemma emplace_until_exits k v :
  (k < length (emplace_until (S k) k v))%nat.
Proof.
  rewrite emplace_until_replicate, length_app, length_replicate. lia.
Qed.

Lemma Set_in_specifics s h e :
  specifics (Set_in s h e)
  = <[key s := Some h]>
      (specifics e ++ replicate (S (key s) - length (specifics e)) None).
Proof.
  unfold Set_in. cbn [specifics set_specifics]. case_decide as Hle.
  - rewrite emplace_until_replicate.
    by replace (S (key s) `min` (S (key s) - length (specifics e)))%nat
      with (S (key s) - length (specifics e))%nat by lia.
  - replace (S (key s) - length (specifics e))%nat with 0%nat by lia.
    by rewrite app_nil_r.
Qed.

Lemma Deref_in_lookup s e :
  Deref_in s e = mjoin (specifics e !! key s).
Proof.
  unfold Deref_in. case_decide as Hlt.
  - by destruct (specifics e !! key s) as [[?|]|].
  - by rewrite lookup_ge_None_2 by lia.
Qed.

Lemma Deref_in_Set_in s h e : Deref_in s (Set_in s h e) = Some h.
Proof.
  rewrite Deref_in_lookup, Set_in_specifics.
  rewrite list_lookup_insert_eq; [done|].
  rewrite length_app, length_replicate. lia.
Qed.

Lemma Deref_in_Set_in_ne s s' h e :
  key s <> key s' -> Deref_in s' (Set_in s h e) = Deref_in s' e.
Proof.
  intros Hne. rewrite !Deref_in_lookup, Set_in_specifics.
  rewrite list_lookup_insert_ne by done.
  destruct (decide (key s' < length (specifics e))%nat) as [Hlt|Hge].
  - by rewrite lookup_app_l.
  - rewrite lookup_app_r by lia.
    rewrite (lookup_ge_None_2 (specifics e)) by lia.
    by destruct (replicate _ _ !! _) as [x|] eqn:Hx;
      [apply lookup_replicate in Hx as [-> _]|].
Qed.

(** The vector after a write that has to extend it. *)
Lemma Set_in_extends s h e :
  (length (specifics e) <= key s)%nat ->
  specifics (Set_in s h e)
  = specifics e ++ replicate (key s - length (specifics e)) None
    ++ [Some h].
Proof.
  intros Hle. rewrite Set_in_specifics.
  replace (S (key s) - length (specifics e))%nat
    with ((key s - length (specifics e)) + 1)%nat by lia.
  rewrite replicate_add. simpl.
  rewrite insert_app_r_alt by lia.
  f_equal. rewrite insert_app_r_alt by (rewrite length_replicate; lia).
  rewrite length_replicate.
  by replace (key s - length (specifics e) - (key s - length (specifics e)))%nat
    with 0%nat by lia.
Qed.

Lemma Deref_in_writes ws s e :
  s ∉ ws.*1 -> Deref_in s (writes ws e) = Deref_in s e.
Proof.
  revert e. induction ws as [|[s' h] ws IH]; intros e Hs; [done|].
  simpl in *. apply not_elem_of_cons in Hs as [Hne Hs].
  unfold writes in *. simpl. rewrite IH by done.
  apply Deref_in_Set_in_ne. intros Hk. apply Hne.
  destruct s, s'; simpl in *; congruence.
Qed.

Lemma Set_all_writes ws th p a e :
  GetCurrent th = Some a -> isolates p !! a = Some e ->
  exists p',
    Set_all ws th p = Return p' /\
    isolates p' !! a = Some (writes ws e).
Proof.
  intros Hcur. revert p e.
  induction ws as [|[s h] ws IH]; intros p e He; simpl.
  - by exists p.
  - unfold Set_, deref. rewrite Hcur, He. simpl.
    apply IH. unfold store_isolate. simpl. by rewrite lookup_insert_eq.
Qed.

Lemma Deref_current s th p a e :
  GetCurrent th = Some a -> isolates p !! a = Some e ->
  Deref s th p = Return (Deref_in s e).
Proof. intros Hcur He. unfold Deref, deref. by rewrite Hcur, He. Qed.

Lemma Set_current s h th p a e :
  GetCurrent th = Some a -> isolates p !! a = Some e ->
  Set_ s h th p = Return (store_isolate a (Set_in s h e) p).
Proof. intros Hcur He. unfold Set_, deref. by rewrite Hcur, He. Qed.

End isolate_specific.

(** C6. In an environment whose slot vector starts empty, after any
    writes [ws]: a slot that was never written reads as empty; a write at
    a key the vector does not reach yet appends empty slots up to the key
    and the value at the key; the key then reads as the value written, and
    every other key that was never written still reads as empty. *)
Theorem isolate_specific_slots
  (ws : list (IsolateSpecific * Value)) (s : IsolateSpecific)
  (handle : Value) (th : Thread) (p : Process) (a : addr)
  (e : IsolateEnvironment) :
  GetCurrent th = Some a ->
  isolates p !! a = Some e ->
  specifics e = [] ->
  exists p1 e1,
    Set_all ws th p = Return p1 /\ isolates p1 !! a = Some e1 /\
    (s ∉ ws.*1 -> Deref s th p1 = Return None) /\
    exists p2 e2,
      Set_ s handle th p1 = Return p2 /\ isolates p2 !! a = Some e2 /\
      ((length (specifics e1) <= key s)%nat ->
       specifics e2
       = specifics e1 ++ replicate (key s - length (specifics e1)) None
         ++ [Some handle]) /\
      Deref s th p2 = Return (Some handle) /\
      (forall s', s' <> s -> s' ∉ ws.*1 -> Deref s' th p2 = Return None).
Proof.
  intros Hcur He Hnil.
  destruct (Set_all_writes ws th p a e Hcur He) as (p1 & Hp1 & He1).
  assert (Hfresh : forall s0, Deref_in s0 e = None).
  { intros s0. by rewrite Deref_in_lookup, Hnil. }
  exists p1, (writes ws e). split_and!; [done..| |].
  - intros Hs. rewrite (Deref_current s th p1 a _ Hcur He1).
    by rewrite Deref_in_writes, Hfresh.
  - exists (store_isolate a (Set_in s handle (writes ws e)) p1),
      (Set_in s handle (writes ws e)).
    assert (He2 : isolates (store_isolate a (Set_in s handle (writes ws e)) p1)
                  !! a = Some (Set_in s handle (writes ws e))).
    { unfold store_isolate. simpl. by rewrite lookup_insert_eq. }
    split_and!.
    + by apply Set_current.
    + done.
    + apply Set_in_extends.
    + rewrite (Deref_current s th _ a _ Hcur He2).
      by rewrite Deref_in_Set_in.
    + intros s' Hne Hs'. rewrite (Deref_current s' th _ a _ Hcur He2).
      rewrite Deref_in_Set_in_ne, Deref_in_writes, Hfresh; [done..|].
      intros Hk. apply Hne. destruct s, s'; simpl in *; congruence.
Qed.

(** A worker thread inside the executor lock of a new environment at
    address 0; slot 1 is written, then slot 3. *)
Lemma isolate_specific_slots_witness :
  let th := ExecutorLock_ctor 0%nat (initial_thread None) in
  let p := {| isolates := {[ 0%nat := new 1024 ]}; holders := ∅ |} in
  exists p1 e1,
    Set_all [({| key := 1%nat |}, Null)] th p = Return p1 /\
    isolates p1 !! 0%nat = Some e1 /\
    ({| key := 3%nat |} ∉ [({| key := 1%nat |}, Null)].*1 ->
     Deref {| key := 3%nat |} th p1 = Return None) /\
    exists p2 e2,
      Set_ {| key := 3%nat |} (Boolean true) th p1 = Return p2 /\
      isolates p2 !! 0%nat = Some e2 /\
      ((length (specifics e1) <= 3)%nat ->
       specifics e2
       = specifics e1 ++ replicate (3 - length (specifics e1)) None
         ++ [Some (Boolean true)]) /\
      Deref {| key := 3%nat |} th p2 = Return (Some (Boolean true)) /\
      (forall s', s' <> {| key := 3%nat |} -> s' ∉ [({| key := 1%nat |}, Null)].*1 ->
                  Deref s' th p2 = Return None).
Proof.
  intros th p.
  apply (isolate_specific_slots [({| key := 1%nat |}, Null)] {| key := 3%nat |}
           (Boolean true) th p 0%nat (new 1024)); reflexivity.
Defined.

(** ** Termination *)

Section terminate.
Implicit Types (p : Process) (e : IsolateEnvironment).

Lemma store_isolate_lookup a e p :
  isolates (store_isolate a e p) !! a = Some e.
Proof. unfold store_isolate. simpl. by rewrite lookup_insert_eq. Qed.

Lemma store_isolate_twice a e e' p :
  store_isolate a e (store_isolate a e' p) = store_isolate a e p.
Proof. unfold store_isolate. simpl. by rewrite insert_insert_eq. Qed.

Lemma store_holder_twice a h h' p :
  store_holder a h (store_holder a h' p) = store_holder a h p.
Proof. unfold store_holder. simpl. by rewrite insert_insert_eq. Qed.

Lemma store_isolate_holder a e b h p :
  store_isolate a e (store_holder b h p)
  = store_holder b h (store_isolate a e p).
Proof. done. Qed.

(** The environment [Terminate] leaves at [this]. *)
Lemma Terminate_linked this p e h :
  isolates p !! this = Some e -> root e = false -> holder e = Some h ->
  is_Some (holders p !! h) ->
  Terminate this p
  = Return (store_holder h {| holder_isolate := None |}
              (store_isolate this
                 (set_isolate (TerminateExecution (isolate e))
                    (set_terminated true e)) p)).
Proof.
  intros He Hroot Hh [x Hx]. unfold Terminate, deref.
  rewrite He. simpl. rewrite Hroot. simpl. rewrite Hh, Hx. done.
Qed.

(** The factory links the environment and the holder it returns. *)
Lemma New_linked e p :
  let '(h, p') := New e p in
  exists a,
    holders p' !! h = Some {| holder_isolate := Some a |} /\
    isolates p' !! a = Some (set_holder (Some h) e).
Proof.
  unfold New. simpl. eexists. split.
  - by rewrite lookup_insert_eq.
  - by rewrite lookup_insert_eq.
Qed.

End terminate.

(** C4. On an environment that is not the root and is linked to its
    holder as the factory links them, [Terminate] returns; it has set
    [terminated], asked the engine to terminate execution and cleared the
    pointer of the holder to the environment; a second call returns the
    same process. On the root environment the assertion fails. *)
Theorem Terminate_spec (this : addr) (p : Process) (e : IsolateEnvironment) :
  isolates p !! this = Some e ->
  (root e = false ->
   forall h, holder e = Some h -> is_Some (holders p !! h) ->
   exists p1 e1,
     Terminate this p = Return p1 /\
     isolates p1 !! this = Some e1 /\
     terminated e1 = true /\
     terminating (isolate e1) = true /\
     holders p1 !! h = Some {| holder_isolate := None |} /\
     Terminate this p1 = Return p1) /\
  (root e = true -> Terminate this p = Die AssertionFailed).
Proof.
  intros He. split.
  - intros Hroot h Hh Hx.
    eexists _, _. split; [by apply Terminate_linked|].
    split; [apply store_isolate_lookup|].
    split; [done|]. split; [done|].
    split; [simpl; by rewrite lookup_insert_eq|].
    erewrite Terminate_linked;
      [|apply store_isolate_lookup|done|done
       |simpl; rewrite lookup_insert_eq; eauto].
    apply (f_equal Return).
    rewrite store_isolate_holder, store_isolate_twice, store_holder_twice.
    by destruct e.
  - intros Hroot. unfold Terminate, deref. rewrite He. simpl.
    by rewrite Hroot.
Qed.

(** An environment made by the factory in an empty process; and the root
    environment, made without a holder as the module entry point makes
    it. *)
Lemma Terminate_spec_witness :
  let p := (New (new 1024) {| isolates := ∅; holders := ∅ |}).2 in
  let q := {| isolates := {[ 0%nat := wrap_host ]}; holders := ∅ |} in
  (exists p1 e1,
     Terminate 0%nat p = Return p1 /\
     isolates p1 !! 0%nat = Some e1 /\
     terminated e1 = true /\
     terminating (isolate e1) = true /\
     holders p1 !! 0%nat = Some {| holder_isolate := None |} /\
     Terminate 0%nat p1 = Return p1) /\
  Terminate 0%nat q = Die AssertionFailed.
Proof.
  intros p q. split.
  - apply (Terminate_spec 0%nat p (set_holder (Some 0%nat) (new 1024)));
      [reflexivity|reflexivity|reflexivity|eexists; reflexivity].
  - apply (Terminate_spec 0%nat q wrap_host); reflexivity.
Defined.

(** ** The memory limit flag *)

Section limit_flag.
Context `{Engine} `{ExternalCopyCc}.
Implicit Types (p : Process) (e : IsolateEnvironment).

Lemma keeps_refl p : keeps_limit_flags p p.
Proof. intros a e He. by exists e. Qed.

Lemma keeps_trans p1 p2 p3 :
  keeps_limit_flags p1 p2 -> keeps_limit_flags p2 p3 ->
  keeps_limit_flags p1 p3.
Proof.
  intros H12 H23 a e He.
  destruct (H12 a e He) as (e2 & He2 & Hf2).
  destruct (H23 a e2 He2) as (e3 & He3 & Hf3).
  exists e3. split; [done|]. auto.
Qed.

(** Storing an environment that has the flag whenever the one it replaces
    had it. *)
Lemma keeps_store_isolate a e e' p :
  isolates p !! a = Some e ->
  (DidHitMemoryLimit e = true -> DidHitMemoryLimit e' = true) ->
  keeps_limit_flags p (store_isolate a e' p).
Proof.
  intros He Hf b eb Hb. unfold store_isolate. simpl.
  destruct (decide (a = b)) as [->|Hne].
  - rewrite lookup_insert_eq. exists e'. split; [done|].
    intros Heb. apply Hf. congruence.
  - rewrite lookup_insert_ne by done. by exists eb.
Qed.

Lemma keeps_store_holder a h p : keeps_limit_flags p (store_holder a h p).
Proof. intros b eb Hb. by exists eb. Qed.

Lemma keeps_Terminate this p p' :
  Terminate this p = Return p' -> keeps_limit_flags p p'.
Proof.
  unfold Terminate, deref.
  destruct (isolates p !! this) as [e|] eqn:He; [|done]. simpl.
  destruct (root e); [done|]. simpl.
  destruct (holder e) as [h|]; [|done].
  destruct (holders p !! h); [|done]. simpl. intros [= <-].
  eapply keeps_trans; [|apply keeps_store_holder].
  by eapply keeps_store_isolate.
Qed.

Lemma keeps_GCEpilogueCallback this stats p p' :
  GCEpilogueCallback this stats p = Return p' -> keeps_limit_flags p p'.
Proof.
  unfold GCEpilogueCallback, deref.
  destruct (isolates p !! this) as [e|] eqn:He; [|done]. simpl.
  destruct (root e); [intros [= <-]; apply keeps_refl|].
  case_decide.
  - intros Hp'. eapply keeps_trans; [|by eapply keeps_Terminate].
    by eapply keeps_store_isolate.
  - intros [= <-]. by eapply keeps_store_isolate.
Qed.

Lemma keeps_OOMErrorCallback this p p' :
  OOMErrorCallback this p = Return p' -> keeps_limit_flags p p'.
Proof.
  unfold OOMErrorCallback, deref.
  destruct (isolates p !! this) as [e|] eqn:He; [|done]. simpl.
  intros Hp'. eapply keeps_trans; [|by eapply keeps_Terminate].
  by eapply keeps_store_isolate.
Qed.

Lemma keeps_PromiseRejectCallback this v p p' :
  PromiseRejectCallback this v p = Return p' -> keeps_limit_flags p p'.
Proof.
  unfold PromiseRejectCallback, deref.
  destruct (isolates p !! this) as [e|] eqn:He; [|done]. simpl.
  destruct (rejected_promise_error e); intros [= <-].
  - apply keeps_refl.
  - by eapply keeps_store_isolate.
Qed.

Lemma keeps_TaskEpilogue this p :
  keeps_limit_flags p (TaskEpilogue this p).2.
Proof.
  unfold TaskEpilogue, deref.
  destruct (isolates p !! this) as [e|] eqn:He; [|apply keeps_refl].
  destruct (hit_memory_limit e) eqn:Hhit; [apply keeps_refl|].
  destruct (rejected_promise_error e); [|apply keeps_refl].
  by eapply keeps_store_isolate.
Qed.

Lemma keeps_TransferIn c after_gc th p :
  keeps_limit_flags p (TransferIn c after_gc th p).2.
Proof.
  unfold TransferIn, CopyIntoCheckHeap, deref.
  destruct (GetCurrent th) as [a|]; [|apply keeps_refl].
  destruct (isolates p !! a) as [e|] eqn:He; [|apply keeps_refl].
  destruct (HeapCheck _ _ _); [|apply keeps_refl..].
  destruct (CopyInto _ _ _) as [r i]. simpl.
  by eapply keeps_store_isolate.
Qed.

Lemma keeps_Set s handle th p p' :
  Set_ s handle th p = Return p' -> keeps_limit_flags p p'.
Proof.
  unfold Set_, deref.
  destruct (GetCurrent th) as [a|]; [|done].
  destruct (isolates p !! a) as [e|] eqn:He; [|done]. simpl.
  intros [= <-]. by eapply keeps_store_isolate.
Qed.

Lemma keeps_after_update (c : Completion Process) p p' :
  (forall q, c = Return q -> keeps_limit_flags p q) ->
  after_update c p = Some p' -> keeps_limit_flags p p'.
Proof.
  intros Hc. destruct c; simpl; intros [= <-]; [by apply Hc|apply keeps_refl].
Qed.

Lemma keeps_perform target op p p' :
  perform target op p = Some p' -> keeps_limit_flags p p'.
Proof.
  destruct op; simpl.
  - apply keeps_after_update, keeps_GCEpilogueCallback.
  - apply keeps_after_update, keeps_OOMErrorCallback.
  - apply keeps_after_update, keeps_PromiseRejectCallback.
  - pose proof (keeps_TaskEpilogue target p) as Hk.
    destruct (TaskEpilogue target p) as [r q]. simpl in Hk.
    by destruct r; simpl; intros [= <-].
  - apply keeps_after_update, keeps_Terminate.
  - pose proof (keeps_TransferIn c after_gc
                  (ExecutorLock_ctor target (initial_thread None)) p) as Hk.
    destruct (TransferIn _ _ _ _) as [r q]. simpl in Hk.
    by destruct r; simpl; intros [= <-].
  - apply keeps_after_update, keeps_Set.
Qed.

Lemma keeps_perform_all ops p p' :
  perform_all ops p = Some p' -> keeps_limit_flags p p'.
Proof.
  revert p. induction ops as [|[target op] ops IH]; intros p; simpl.
  - intros [= <-]. apply keeps_refl.
  - destruct (perform target op p) as [q|] eqn:Hq; [|done]. simpl.
    intros Hall. eapply keeps_trans; [by eapply keeps_perform|by apply IH].
Qed.

End limit_flag.

(** C5. Once [DidHitMemoryLimit] is true for an environment, it is true
    after any sequence of GC epilogues, OOM callbacks, promise rejections,
    task epilogues, terminations, transfers and slot writes, on this or on
    any other environment of the process. *)
Theorem hit_memory_limit_monotone `{Engine} `{ExternalCopyCc}
  (ops : list (addr * Operation)) (this : addr) (p p' : Process)
  (e : IsolateEnvironment) :
  isolates p !! this = Some e ->
  DidHitMemoryLimit e = true ->
  perform_all ops p = Some p' ->
  exists e', isolates p' !! this = Some e' /\ DidHitMemoryLimit e' = true.
Proof.
  intros He Hhit Hall.
  destruct (keeps_perform_all ops p p' Hall this e He) as (e' & He' & Hf).
  exists e'. auto.
Qed.

(** An environment made by the factory whose flag is set, and one of each
    operation on it, with the reference engine. *)
Lemma hit_memory_limit_monotone_witness :
  let stats := {| used_heap_size := 1; external_memory := 0 |} in
  let p0 := (New (new 1024) {| isolates := ∅; holders := ∅ |}).2 in
  let e := set_hit_memory_limit true (set_holder (Some 0%nat) (new 1024)) in
  let p := store_isolate 0%nat e p0 in
  let ops :=
    [(0%nat, OpTaskEpilogue); (0%nat, OpGCEpilogue stats);
     (0%nat, OpTransferIn (ExternalCopyNumber 7) stats);
     (0%nat, OpPromiseReject Null); (0%nat, OpTaskEpilogue);
     (0%nat, OpSet {| key := 2%nat |} Null); (0%nat, OpTerminate);
     (0%nat, OpOOMError)] in
  exists p',
    perform_all ops p = Some p' /\
    exists e', isolates p' !! 0%nat = Some e' /\ DidHitMemoryLimit e' = true.
Proof.
  intros stats p0 e p ops. eexists. split; [vm_compute; reflexivity|].
  apply (hit_memory_limit_monotone ops 0%nat p _ e);
    [reflexivity|reflexivity|vm_compute; reflexivity].
Defined.

(** ** The decoration of errors *)

Section annotated_errors.
Context `{Engine}.

Lemma c_str_idemp s : c_str (c_str s) = c_str s.
Proof.
  induction s as [|c s IH]; [done|]. simpl.
  case_decide; [done|]. simpl. case_decide; [done|]. by rewrite IH.
Qed.

(** A C string has no NUL inside: what is appended to it stays. *)
Lemma c_str_app s t : c_str (c_str s +:+ t) = c_str s +:+ c_str t.
Proof.
  induction s as [|c s IH]; [done|]. simpl.
  case_decide; [done|]. simpl. case_decide; [done|]. by rewrite IH.
Qed.

Lemma length_widen s : length (widen s) = String.length s.
Proof. induction s as [|c s IH]; [done|]. simpl. by rewrite IH. Qed.

Lemma string_length_app s t :
  String.length (s +:+ t) = (String.length s + String.length t)%nat.
Proof. induction s as [|c s IH]; [done|]. simpl. by rewrite IH. Qed.

Lemma c_str_annotation r line col :
  (2 <= String.length (c_str (annotation r line col)))%nat.
Proof. unfold annotation. simpl. repeat case_decide; try done. simpl. lia. Qed.

Lemma widen_app_ne s t :
  (0 < String.length t)%nat -> widen (s +:+ t) <> widen s.
Proof.
  intros Ht Heq. apply (f_equal length) in Heq.
  rewrite !length_widen, string_length_app in Heq. lia.
Qed.

Lemma v8_string_c_str s :
  Z.of_nat (String.length (c_str s)) <= kMaxLength ->
  v8_string s = Return (widen (c_str s)).
Proof. intros Hle. unfold v8_string, NewFromOneByte. by case_decide. Qed.

(** One application of the handler to an error object. *)
Lemma annotate_error kind m st message line col r text :
  GetLineNumber message = Some line ->
  GetStartColumn message = Some col ->
  - INT_MAX - 1 <= col + 1 <= INT_MAX ->
  Utf8Value (GetScriptResourceName message) = Some r ->
  Utf8Value (String m) = Some text ->
  Z.of_nat (String.length (c_str text +:+ c_str (annotation (c_str r) line col)))
    <= kMaxLength ->
  annotate (Some (ErrorObject kind m st, message))
  = Return (ErrorObject kind
              (widen (c_str text +:+ c_str (annotation (c_str r) line col)))
              st).
Proof.
  intros Hline Hcol Hrange Hr Htext Hlen. unfold annotate. simpl.
  rewrite Hline, Hcol, Hr. simpl. unfold int_add.
  rewrite decide_True by done. simpl. rewrite Htext. simpl.
  fold (annotation (c_str r) line col).
  rewrite v8_string_c_str; rewrite c_str_app; done.
Qed.

End annotated_errors.

(** C9, as the code has it. The handler appends the annotation
    [ [resource:line:column]] to the message of the error each time it
    runs: on an error whose message the engine renders byte for byte (a
    message in ASCII), decorating once gives the message followed by the
    annotation, decorating the result again gives it followed by the
    annotation twice, and the two messages differ.
    [RunWithAnnotatedErrors] leaves the error decorated once pending. *)
Theorem decorate_appends `{Engine} (kind : ErrorType.t)
  (m st : list uint16) (message : Message) (line col : Z) (r text : string) :
  GetLineNumber message = Some line ->
  GetStartColumn message = Some col ->
  - INT_MAX - 1 <= col + 1 <= INT_MAX ->
  Utf8Value (GetScriptResourceName message) = Some r ->
  Utf8Value (String m) = Some text ->
  let note := c_str (annotation (c_str r) line col) in
  let once := c_str text +:+ note in
  let twice := once +:+ note in
  Z.of_nat (String.length twice) <= kMaxLength ->
  Utf8Value (String (widen once)) = Some once ->
  decorate message (ErrorObject kind m st)
  = Return (ErrorObject kind (widen once) st) /\
  decorate message (ErrorObject kind (widen once) st)
  = Return (ErrorObject kind (widen twice) st) /\
  widen twice <> widen once /\
  RunWithAnnotatedErrors (T := unit)
    (Throw js_runtime_error, Some (ErrorObject kind m st, message))
  = (Throw js_runtime_error, Some (ErrorObject kind (widen once) st)).
Proof.
  intros Hline Hcol Hrange Hr Htext note once twice Hlen Hsame.
  pose proof (c_str_annotation (c_str r) line col) as Hnote.
  assert (Hlen1 : Z.of_nat (String.length once) <= kMaxLength).
  { unfold twice in Hlen. rewrite string_length_app in Hlen. lia. }
  assert (Hone : annotate (Some (ErrorObject kind m st, message))
                 = Return (ErrorObject kind (widen once) st)).
  { by apply annotate_error. }
  assert (Hfix : c_str once = once).
  { unfold once, note. by rewrite c_str_app, c_str_idemp. }
  split; [done|]. split; [|split].
  - unfold decorate.
    rewrite (annotate_error kind (widen once) st message line col r once);
      rewrite ?Hfix; done.
  - apply widen_app_ne. fold note in Hnote. lia.
  - unfold RunWithAnnotatedErrors. by rewrite Hone.
Qed.

(** A [TypeError] with message [x], thrown at line 1, column 0 of
    [a.js], on the reference engine. *)
Lemma decorate_appends_witness :
  let message := {| GetLineNumber := Some 1; GetStartColumn := Some 0;
                    GetScriptResourceName := String (widen "a.js") |} in
  let e := ErrorObject ErrorType.TypeError (widen "x") [] in
  let e1 := ErrorObject ErrorType.TypeError (widen "x [a.js:1:1]") [] in
  let e2 :=
    ErrorObject ErrorType.TypeError (widen "x [a.js:1:1] [a.js:1:1]") [] in
  decorate message e = Return e1 /\
  decorate message e1 = Return e2 /\
  widen "x [a.js:1:1] [a.js:1:1]" <> widen "x [a.js:1:1]" /\
  RunWithAnnotatedErrors (T := unit) (Throw js_runtime_error, Some (e, message))
  = (Throw js_runtime_error, Some e1).
Proof.
  intros message e e1 e2.
  apply (decorate_appends ErrorType.TypeError (widen "x") [] message 1 0
           "a.js" "x");
    [reflexivity|reflexivity|unfold INT_MAX; lia
    |reflexivity|reflexivity|by vm_compute|reflexivity].
Defined.

(** C9, as stated, fails: decorating the error above twice does not give
    the error decorated once. *)
Lemma decorate_idempotent_counterexample :
  let message := {| GetLineNumber := Some 1; GetStartColumn := Some 0;
                    GetScriptResourceName := String (widen "a.js") |} in
  let e := ErrorObject ErrorType.TypeError (widen "x") [] in
  (e1 ← decorate message e; decorate message e1) <> decorate message e.
Proof. vm_compute. discriminate. Qed.

(** ** Strings *)

(** C10. For a string copy whose vector is empty, [CopyInto] returns the
    canonical empty string and leaves the isolate as it is: no external
    string resource is made. The branch that makes one is taken only for a
    vector that is not empty, where it gives the string over the shared
    units, or throws when the engine refuses the length. So [CopyInto]
    never reaches the crash of the engine on an empty external string. *)
Theorem ExternalCopyString_CopyInto_total `{Engine} (value : list uint16)
  (transfer_in : bool) (i : Isolate) :
  (value = [] ->
   CopyInto (ExternalCopyString value) transfer_in i
   = (Return String_Empty, i)) /\
  (external_strings
     (CopyInto (ExternalCopyString value) transfer_in i).2
   <> external_strings i -> value <> []) /\
  (value <> [] ->
   CopyInto (ExternalCopyString value) transfer_in i
   = (if decide (Z.of_nat (length value) <= kMaxLength)
      then (Return (String value), externalize value i)
      else (Throw js_runtime_error, i))) /\
  (forall w, (CopyInto (ExternalCopyString value) transfer_in i).1 <> Die w).
Proof.
  simpl. unfold ExternalCopyString_CopyInto.
  destruct value as [|u value].
  - rewrite decide_True by done. simpl. done.
  - rewrite decide_False by done. unfold NewExternalTwoByte.
    split; [done|]. split; [done|].
    case_decide; simpl; done.
Qed.

(** The empty string and the string [hi], on the reference engine. *)
Lemma ExternalCopyString_CopyInto_total_witness :
  CopyInto (ExternalCopyString []) true empty_isolate
  = (Return String_Empty, empty_isolate) /\
  CopyInto (ExternalCopyString [104; 105]) true empty_isolate
  = (Return (String [104; 105]), externalize [104; 105] empty_isolate).
Proof.
  split.
  - apply (ExternalCopyString_CopyInto_total [] true empty_isolate).
    reflexivity.
  - destruct (ExternalCopyString_CopyInto_total [104; 105] true empty_isolate)
      as (_ & _ & Hne & _).
    apply Hne. discriminate.
Defined.

(** ** The heap guard *)



(** ** Array buffers *)

Section array_buffers.
Context `{Engine}.

Lemma new_store_fresh contents i :
  buffers i !! (new_store contents i).1 = None.
Proof.
  unfold new_store. simpl. apply not_elem_of_dom, is_fresh.
Qed.

End array_buffers.

(** C3. For an array buffer of the source isolate, [Copy] with
    [transfer_out] moves the bytes out: the transferable holds the
    contents the buffer had, the source buffer is neutered and its
    [byteLength] reads 0, and the other buffers of the source are as they
    were. [CopyInto] at the destination then makes a new array buffer whose
    contents are those bytes, and leaves the buffers the destination had
    as they were. *)
Theorem array_buffer_move `{Engine} (store : addr) (b : BackingStore)
  (origin : addr) (src dst : Isolate) :
  buffers src !! store = Some b ->
  exists src' a dst',
    Copy (ArrayBuffer store) true origin src
    = (Return (External (ExternalCopyArrayBuffer (contents b))), src') /\
    Transfer store src = (Return (contents b), src') /\
    buffers src' !! store = Some {| contents := []; neutered := true |} /\
    ByteLength store src' = Some 0 /\
    (forall other, other <> store ->
                   buffers src' !! other = buffers src !! other) /\
    CopyInto (ExternalCopyArrayBuffer (contents b)) true dst
    = (Return (ArrayBuffer a), dst') /\
    buffers dst !! a = None /\
    buffers dst' !! a = Some {| contents := contents b; neutered := false |} /\
    ByteLength a dst' = Some (Z.of_nat (length (contents b))) /\
    (forall other, other <> a ->
                   buffers dst' !! other = buffers dst !! other).
Proof.
  intros Hb.
  exists (set_buffers
            (<[store := {| contents := []; neutered := true |}]> (buffers src))
            src),
    (new_store (contents b) dst).1,
    (allocate (ArrayBuffer (new_store (contents b) dst).1)
       (new_store (contents b) dst).2).
  split_and!.
  - unfold Copy, Transfer. simpl. by rewrite Hb.
  - unfold Transfer. by rewrite Hb.
  - simpl. by rewrite lookup_insert_eq.
  - unfold ByteLength. simpl. by rewrite lookup_insert_eq.
  - intros other Hne. simpl. by rewrite lookup_insert_ne.
  - done.
  - apply new_store_fresh.
  - simpl. by rewrite lookup_insert_eq.
  - unfold ByteLength. simpl. by rewrite lookup_insert_eq.
  - intros other Hne. simpl. by rewrite lookup_insert_ne.
Qed.

(** A buffer of three bytes at address 5 of the source, next to a buffer
    at address 0; the destination has a buffer at address 0 already. *)
Lemma array_buffer_move_witness :
  let b := {| contents := [1; 2; 3]; neutered := false |} in
  let src := set_buffers {[ 5%nat := b; 0%nat := b ]} empty_isolate in
  let dst := set_buffers {[ 0%nat := b ]} empty_isolate in
  exists src' a dst',
    Copy (ArrayBuffer 5%nat) true 0%nat src
    = (Return (External (ExternalCopyArrayBuffer [1; 2; 3])), src') /\
    Transfer 5%nat src = (Return [1; 2; 3], src') /\
    buffers src' !! 5%nat = Some {| contents := []; neutered := true |} /\
    ByteLength 5%nat src' = Some 0 /\
    (forall other, other <> 5%nat ->
                   buffers src' !! other = buffers src !! other) /\
    CopyInto (ExternalCopyArrayBuffer [1; 2; 3]) true dst
    = (Return (ArrayBuffer a), dst') /\
    buffers dst !! a = None /\
    buffers dst' !! a = Some {| contents := [1; 2; 3]; neutered := false |} /\
    ByteLength a dst' = Some 3 /\
    (forall other, other <> a ->
                   buffers dst' !! other = buffers dst !! other).
Proof.
  intros b src dst.
  apply (array_buffer_move 5%nat b 0%nat src dst). reflexivity.
Defined.

(** ** Values without a transferable representation *)

(** C7. For a value of an isolate, [Copy] fails with NotSerializable, and
    leaves the isolate as it is, when the value has no transferable
    representation: a function, a symbol, a native object outside the
    handle set, or an array or plain object that reaches one. For every
    other value it returns a transferable. *)
Theorem Copy_not_serializable `{Engine} `{!StructuredClone} (v : Value)
  (transfer_out : bool) (origin : addr) (i : Isolate) :
  valid_in i v ->
  (has_transferable_representation v = false ->
   Copy v transfer_out origin i = (Throw (Failure NotSerializable), i)) /\
  (has_transferable_representation v = true ->
   exists t i', Copy v transfer_out origin i = (Return t, i')).
Proof.
  unfold has_transferable_representation. intros Hvalid.
  destruct v as [| |b|d|u|d|t|vs|ps|code|[] ident|k m st|a|t a];
    try (split; [discriminate|intros _; by eexists _, _]);
    try (split; [done|discriminate]).
  - (* array *)
    destruct (WriteValue (Array vs)) as [buffer|] eqn:Hw.
    + assert (cloneable (Array vs) = true) as Hc
        by (apply WriteValue_cloneable; rewrite Hw; eauto).
      split; [congruence|]. intros _. unfold Copy. simpl. rewrite Hw.
      by eexists _, _.
    + split.
      * intros _. unfold Copy. simpl. by rewrite Hw.
      * intros Hc. apply WriteValue_cloneable in Hc as [x Hx]. congruence.
  - (* plain object *)
    destruct (WriteValue (Object ps)) as [buffer|] eqn:Hw.
    + assert (cloneable (Object ps) = true) as Hc
        by (apply WriteValue_cloneable; rewrite Hw; eauto).
      split; [congruence|]. intros _. unfold Copy. simpl. rewrite Hw.
      by eexists _, _.
    + split.
      * intros _. unfold Copy. simpl. by rewrite Hw.
      * intros Hc. apply WriteValue_cloneable in Hc as [x Hx]. congruence.
  - (* array buffer *)
    destruct Hvalid as [b Hb]. split; [done|]. intros _.
    unfold Copy, Transfer, copy_bytes. simpl. rewrite Hb.
    destruct transfer_out; by eexists _, _.
  - (* view *)
    destruct Hvalid as [b Hb]. split; [done|]. intros _.
    unfold Copy, Transfer, copy_bytes. simpl. rewrite Hb.
    destruct transfer_out; by eexists _, _.
Qed.

(** ** The reference engine meets the interface *)

(** Induction on values, through the elements of arrays and the
    properties of plain objects. *)
Lemma Value_nested_ind (P : Value -> Prop) :
  P Undefined -> P Null -> (forall b, P (Boolean b)) ->
  (forall d, P (Number d)) -> (forall u, P (String u)) ->
  (forall d, P (Symbol d)) -> (forall t, P (Date t)) ->
  (forall vs, Forall P vs -> P (Array vs)) ->
  (forall ps, Forall (fun p => P p.2) ps -> P (Object ps)) ->
  (forall c, P (Function c)) -> (forall h n, P (NativeObject h n)) ->
  (forall k m s, P (ErrorObject k m s)) -> (forall a, P (ArrayBuffer a)) ->
  (forall t a, P (ArrayBufferView t a)) ->
  forall v, P v.
Proof.
  intros HU HN HB HNum HS HSym HD HA HO HF HNat HE HAB HV.
  fix IH 1. intros [| |b|d|u|d|t|vs|ps|c|h n|k m s|a|t a].
  - exact HU.
  - exact HN.
  - apply HB.
  - apply HNum.
  - apply HS.
  - apply HSym.
  - apply HD.
  - apply HA. induction vs as [|x xs IHxs]; constructor;
      [apply IH|exact IHxs].
  - apply HO. induction ps as [|[k x] ps IHps]; constructor;
      [apply IH|exact IHps].
  - apply HF.
  - apply HNat.
  - apply HE.
  - apply HAB.
  - apply HV.
Qed.

Section reference.
Import Reference.

Lemma dec_pos_enc p r : dec_pos (enc_pos p ++ r) = Some (p, r).
Proof. induction p as [p IH|p IH|]; simpl; by rewrite ?IH. Qed.

Lemma dec_Z_enc z r : dec_Z (enc_Z z ++ r) = Some (z, r).
Proof. destruct z; simpl; by rewrite ?dec_pos_enc. Qed.

Lemma enc_seq_cons {A} (enc : A -> list uint8) x l r :
  enc_seq enc (x :: l) ++ r = 6 :: enc x ++ enc_seq enc l ++ r.
Proof. unfold enc_seq. simpl. by rewrite <- !app_assoc. Qed.

Lemma dec_units_enc zs r fuel :
  (length (enc_seq enc_Z zs ++ r) <= fuel)%nat ->
  dec_units fuel (enc_seq enc_Z zs ++ r) = Some (zs, r).
Proof.
  revert fuel. induction zs as [|z zs IH]; intros fuel Hlen.
  - destruct fuel; simpl in *; [lia|done].
  - rewrite enc_seq_cons in *. destruct fuel; simpl in Hlen; [lia|].
    simpl. rewrite dec_Z_enc. simpl. rewrite IH; [done|].
    rewrite length_app in Hlen. lia.
Qed.

Lemma read_elements_write vs (r : list uint8) (fuel : nat) :
  Forall (fun v => json_cloneable v = true ->
                   forall r fuel, (length (write v ++ r) <= fuel)%nat ->
                                  read fuel (write v ++ r) = Some (v, r)) vs ->
  forallb json_cloneable vs = true ->
  (length (concat (map (fun x => 6%Z :: write x) vs) ++ 7%Z :: r) <= fuel)%nat ->
  read_elements fuel (concat (map (fun x => 6%Z :: write x) vs) ++ 7%Z :: r)
  = Some (vs, r).
Proof.
  intros HF. revert fuel.
  induction HF as [|v vs Hv _ IH]; intros fuel Hj Hlen.
  - destruct fuel; simpl in *; [lia|done].
  - simpl in Hj. apply andb_true_iff in Hj as [Hjv Hjs].
    destruct fuel; simpl in Hlen; [lia|].
    cbn [map concat app]. rewrite <- app_assoc.
    cbn [read_elements]. rewrite Hv; [|done|].
    + simpl. rewrite IH; [done|done|].
      unfold uint8 in *. rewrite !length_app in *. lia.
    + unfold uint8 in *. rewrite !length_app in *. lia.
Qed.

Lemma read_properties_write ps (r : list uint8) (fuel : nat) :
  Forall (fun p => json_cloneable p.2 = true ->
                   forall r fuel, (length (write p.2 ++ r) <= fuel)%nat ->
                                  read fuel (write p.2 ++ r) = Some (p.2, r))
    ps ->
  forallb (fun p => json_cloneable p.2) ps = true ->
  (length (concat (map (fun p => 6%Z :: enc_seq enc_Z p.1 ++ write p.2) ps)
           ++ 7%Z :: r) <= fuel)%nat ->
  read_properties fuel
    (concat (map (fun p => 6%Z :: enc_seq enc_Z p.1 ++ write p.2) ps) ++ 7%Z :: r)
  = Some (ps, r).
Proof.
  intros HF. revert fuel.
  induction HF as [|[k v] ps Hv _ IH]; intros fuel Hj Hlen.
  - destruct fuel; simpl in *; [lia|done].
  - simpl in Hj, Hv. apply andb_true_iff in Hj as [Hjv Hjs].
    destruct fuel; simpl in Hlen; [lia|].
    cbn [map concat app fst snd]. rewrite <- !app_assoc.
    cbn [read_properties]. rewrite <- !app_assoc in Hlen.
    rewrite !length_app in Hlen.
    rewrite dec_units_enc by (rewrite !length_app; lia). simpl.
    rewrite Hv; [|done|rewrite !length_app; lia].
    simpl. rewrite IH; [done|done|]. rewrite !length_app. lia.
Qed.

Lemma read_write v :
  json_cloneable v = true ->
  forall r fuel,
    (length (write v ++ r) <= fuel)%nat ->
    read fuel (write v ++ r) = Some (v, r).
Proof.
  induction v as [| |b|d|u|d|t|vs IH|ps IH|c|h n|k m s|a|t a]
    using Value_nested_ind; simpl; try discriminate;
    intros Hj r fuel Hlen; (destruct fuel; [simpl in Hlen; lia|]).
  - done.
  - by destruct b.
  - cbn [read]. by rewrite dec_Z_enc.
  - cbn [read]. rewrite dec_units_enc; [done|]. simpl in Hlen. lia.
  - cbn [read]. rewrite <- app_assoc. cbn [app].
    simpl in Hlen. rewrite <- app_assoc in Hlen. cbn [app] in Hlen.
    rewrite read_elements_write; [done|done|done|].
    unfold uint8 in *. lia.
  - cbn [read]. rewrite <- app_assoc. cbn [app].
    simpl in Hlen. rewrite <- app_assoc in Hlen. cbn [app] in Hlen.
    rewrite read_properties_write; [done|done|done|].
    unfold uint8 in *. lia.
Qed.

Lemma read_all_write v :
  json_cloneable v = true -> read_all (write v) = Some v.
Proof.
  intros Hj. unfold read_all.
  rewrite <- (app_nil_r (write v)) at 2.
  rewrite read_write; [done|done|]. rewrite app_nil_r. lia.
Qed.

(** The reference engine writes the values that can be cloned and reads
    the values of JSON back. *)
Global Instance reference_structured_clone : StructuredClone.
Proof.
  split.
  - intros v. simpl. destruct (cloneable v).
    + split; [done|eauto].
    + split; [by intros [x Hx]|done].
  - intros v buffer Hj. simpl. destruct (cloneable v); [|done].
    intros [= <-]. by apply read_all_write.
Qed.

End reference.

(** With the reference engine: an array that reaches a function has no
    transferable representation, an array of a number and null has. *)
Lemma Copy_not_serializable_witness :
  Copy (Array [Number 1; Function 3%nat]) false 0%nat empty_isolate
  = (Throw (Failure NotSerializable), empty_isolate) /\
  exists t i',
    Copy (Array [Number 1; Null]) false 0%nat empty_isolate = (Return t, i').
Proof.
  split.
  - apply (Copy_not_serializable (Array [Number 1; Function 3%nat]) false
             0%nat empty_isolate); [exact I|reflexivity].
  - apply (Copy_not_serializable (Array [Number 1; Null]) false
             0%nat empty_isolate); [exact I|reflexivity].
Defined.

(** ** The round trip *)

Section round_trip.
Context `{Engine} `{ExternalCopyCc} `{!StructuredClone}.




End round_trip.



(** * More properties of the code *)

(** ** Keyed slots: what a write changes *)

Section slot_writes.
Implicit Types (s : IsolateSpecific) (e : IsolateEnvironment) (h : Value).

Lemma Set_in_length s h e :
  length (specifics (Set_in s h e))
  = (length (specifics e) `max` S (key s))%nat.
Proof.
  rewrite Set_in_specifics, length_insert, length_app, length_replicate. lia.
Qed.

(** Every slot of the vector after a write. *)
Lemma Set_in_lookup s h e (i : nat) :
  specifics (Set_in s h e) !! i
  = if decide (i = key s) then Some (Some h)
    else if decide (i < length (specifics e))%nat then specifics e !! i
    else if decide (i < key s)%nat then Some None
    else None.
Proof.
  rewrite Set_in_specifics. case_decide as Hi.
  - subst. apply list_lookup_insert_eq.
    rewrite length_app, length_replicate. lia.
  - rewrite list_lookup_insert_ne by done. case_decide as Hlt.
    + by rewrite lookup_app_l.
    + rewrite lookup_app_r by lia. case_decide as Hk.
      * apply lookup_replicate_2. lia.
      * apply lookup_ge_None_2. rewrite length_replicate. lia.
Qed.

Lemma Set_in_as_update s h e :
  Set_in s h e = set_specifics (specifics (Set_in s h e)) e.
Proof. done. Qed.

Lemma set_specifics_twice v w e :
  set_specifics v (set_specifics w e) = set_specifics v e.
Proof. done. Qed.

End slot_writes.

(** X1. A write to a keyed slot never shrinks the slot vector: its length
    becomes the larger of the old length and the key plus one. Every other
    slot the vector had is as it was, set or empty, and the slots added
    below the key are empty. *)
Theorem Set_in_slots (s : IsolateSpecific) (h : Value)
  (e : IsolateEnvironment) :
  length (specifics (Set_in s h e))
  = (length (specifics e) `max` S (key s))%nat /\
  (forall i : nat,
     i <> key s -> (i < length (specifics e))%nat ->
     specifics (Set_in s h e) !! i = specifics e !! i) /\
  (forall i : nat,
     (length (specifics e) <= i < key s)%nat ->
     specifics (Set_in s h e) !! i = Some None).
Proof.
  split; [apply Set_in_length|]. split.
  - intros i Hne Hlt. rewrite Set_in_lookup.
    by rewrite decide_False, decide_True by done.
  - intros i [Hge Hlt]. rewrite Set_in_lookup.
    rewrite decide_False by lia. rewrite decide_False by lia.
    by rewrite decide_True by done.
Qed.

(** A vector of three slots: a write at key 1 keeps the length and slot 2;
    a write at key 5 makes six slots and leaves slots 3 and 4 empty. *)
Lemma Set_in_slots_witness :
  let e := set_specifics [Some Null; None; Some (Boolean true)] (new 1024) in
  length (specifics (Set_in {| key := 1%nat |} Undefined e)) = 3%nat /\
  specifics (Set_in {| key := 1%nat |} Undefined e) !! 2%nat
  = Some (Some (Boolean true)) /\
  length (specifics (Set_in {| key := 5%nat |} Undefined e)) = 6%nat /\
  specifics (Set_in {| key := 5%nat |} Undefined e) !! 4%nat = Some None.
Proof.
  intros e.
  destruct (Set_in_slots {| key := 1%nat |} Undefined e) as (Hl1 & Hs1 & _).
  destruct (Set_in_slots {| key := 5%nat |} Undefined e) as (Hl5 & _ & He5).
  split; [exact Hl1|]. split; [apply Hs1; simpl; lia|].
  split; [exact Hl5|]. apply He5. simpl. lia.
Defined.

(** X2. Writes to two different keys commute: the environment is the same
    whichever slot is written first. *)
Theorem Set_in_commute (s1 s2 : IsolateSpecific) (h1 h2 : Value)
  (e : IsolateEnvironment) :
  key s1 <> key s2 ->
  Set_in s1 h1 (Set_in s2 h2 e) = Set_in s2 h2 (Set_in s1 h1 e).
Proof.
  intros Hne.
  rewrite (Set_in_as_update s1 h1 (Set_in s2 h2 e)).
  rewrite (Set_in_as_update s2 h2 (Set_in s1 h1 e)).
  rewrite (Set_in_as_update s2 h2 e) at 2.
  rewrite (Set_in_as_update s1 h1 e) at 2.
  rewrite !set_specifics_twice. f_equal.
  apply list_eq. intros i.
  rewrite !Set_in_lookup, !Set_in_length.
  repeat case_decide; try done; lia.
Qed.

Lemma Set_in_commute_witness :
  Set_in {| key := 0%nat |} Null
    (Set_in {| key := 2%nat |} Undefined (new 1024))
  = Set_in {| key := 2%nat |} Undefined
      (Set_in {| key := 0%nat |} Null (new 1024)).
Proof.
  apply (Set_in_commute {| key := 0%nat |} {| key := 2%nat |}). simpl. lia.
Defined.

(** X3. When a write to a keyed slot through [Set] returns, it has
    changed the slot vector of the current environment and nothing else:
    the holders, every other environment and the other members of the
    current one are as they were. On a thread with no current environment
    the write ends in a null dereference. *)
Theorem Set_frame (s : IsolateSpecific) (h : Value) (th : Thread)
  (p : Process) :
  (forall p', Set_ s h th p = Return p' ->
     exists a e e',
       GetCurrent th = Some a /\ isolates p !! a = Some e /\
       isolates p' !! a = Some e' /\
       holders p' = holders p /\
       (forall b, b <> a -> isolates p' !! b = isolates p !! b) /\
       isolate e' = isolate e /\ holder e' = holder e /\
       memory_limit e' = memory_limit e /\
       hit_memory_limit e' = hit_memory_limit e /\ root e' = root e /\
       last_heap e' = last_heap e /\
       rejected_promise_error e' = rejected_promise_error e /\
       terminated e' = terminated e) /\
  (GetCurrent th = None -> Set_ s h th p = Die NullDereference).
Proof.
  unfold Set_, deref. destruct (GetCurrent th) as [a|] eqn:Hcur.
  - split; [|done]. destruct (isolates p !! a) as [e|] eqn:He; simpl; [|done].
    intros p' [= <-]. exists a, e, (Set_in s h e). unfold store_isolate.
    simpl. split; [done|]. split; [done|].
    split; [by rewrite lookup_insert_eq|]. split; [done|].
    split; [|done]. intros b Hb. by rewrite lookup_insert_ne.
  - by split.
Qed.

(** A worker thread outside every executor lock: the write ends in a null
    dereference. Inside the lock of a new environment it returns and the
    holders are as they were. *)
Lemma Set_frame_witness :
  let p := (New (new 1024) empty_process).2 in
  Set_ {| key := 1%nat |} Null (initial_thread None) p = Die NullDereference /\
  exists p',
    Set_ {| key := 1%nat |} Null
      (ExecutorLock_ctor 0%nat (initial_thread None)) p = Return p' /\
    holders p' = holders p.
Proof.
  intros p. split.
  - by apply (Set_frame {| key := 1%nat |} Null (initial_thread None) p).
  - destruct (Set_ {| key := 1%nat |} Null
                (ExecutorLock_ctor 0%nat (initial_thread None)) p)
      as [p'|x|w] eqn:Hs; [|vm_compute in Hs; discriminate..].
    exists p'. split; [done|].
    destruct (Set_frame {| key := 1%nat |} Null
                (ExecutorLock_ctor 0%nat (initial_thread None)) p) as [Hf _].
    by destruct (Hf p' Hs) as (a & e & e' & _ & _ & _ & Hh & _).
Defined.

(** ** Keys from the counter *)

Section counter.

Lemma IsolateSpecific_ctors_keys n c :
  0 <= c < 2 ^ 64 ->
  (IsolateSpecific_ctors n c).1
  = (fun i : nat => {| key := Z.to_nat ((c + Z.of_nat i) mod 2 ^ 64) |})
      <$> seq 0 n.
Proof.
  revert c. induction n as [|n IH]; intros c Hc; [done|].
  cbn [IsolateSpecific_ctors]. unfold IsolateSpecific_ctor.
  destruct (IsolateSpecific_ctors n ((c + 1) mod 2 ^ 64)) as [ss c'] eqn:Hss.
  cbn [fst seq fmap list_fmap].
  f_equal.
  - by rewrite Z.add_0_r, Z.mod_small.
  - assert (Hc1 : 0 <= (c + 1) mod 2 ^ 64 < 2 ^ 64)
      by (apply Z.mod_pos_bound; lia).
    specialize (IH _ Hc1). rewrite Hss in IH. simpl in IH. rewrite IH.
    rewrite <- fmap_S_seq, <- list_fmap_compose.
    apply list_fmap_ext. intros _ i _. simpl. do 2 f_equal.
    rewrite Zplus_mod_idemp_l. f_equal. lia.
Qed.

(** Fewer than [2^64] steps of the counter do not come back to a value. *)
Lemma counter_steps_inj c (i j : nat) :
  0 <= c < 2 ^ 64 -> Z.of_nat i < 2 ^ 64 -> Z.of_nat j < 2 ^ 64 ->
  Z.to_nat ((c + Z.of_nat i) mod 2 ^ 64)
  = Z.to_nat ((c + Z.of_nat j) mod 2 ^ 64) ->
  i = j.
Proof.
  intros Hc Hi Hj Heq.
  apply Z2Nat.inj in Heq; [|apply Z.mod_pos_bound; lia..].
  pose proof (Z.div_mod (c + Z.of_nat i) (2 ^ 64) ltac:(lia)) as Hdi.
  pose proof (Z.div_mod (c + Z.of_nat j) (2 ^ 64) ltac:(lia)) as Hdj.
  rewrite Heq in Hdi.
  set (qi := (c + Z.of_nat i) / 2 ^ 64) in *.
  set (qj := (c + Z.of_nat j) / 2 ^ 64) in *.
  set (r := (c + Z.of_nat j) mod 2 ^ 64) in *.
  set (M := 2 ^ 64) in *.
  assert (HM : 0 < M) by (unfold M; lia).
  assert (Hq : Z.of_nat i - Z.of_nat j = M * (qi - qj)) by lia.
  assert (qi = qj) by nia. subst. lia.
Qed.

Lemma IsolateSpecific_ctors_NoDup n c :
  0 <= c < 2 ^ 64 -> Z.of_nat n <= 2 ^ 64 ->
  NoDup (key <$> (IsolateSpecific_ctors n c).1).
Proof.
  intros Hc Hn. rewrite IsolateSpecific_ctors_keys by done.
  rewrite <- list_fmap_compose.
  apply NoDup_fmap_2_strong; [|apply NoDup_seq].
  intros i j [_ Hi]%elem_of_seq [_ Hj]%elem_of_seq Heq. simpl in Heq.
  apply (counter_steps_inj c); [done|lia|lia|done].
Qed.

End counter.

(** X4. The objects [IsolateSpecific] constructed one after the other, up
    to [2^64] of them, have different keys, although the counter wraps
    around: no two of them name the same slot. *)
Theorem IsolateSpecific_keys_distinct (n : nat) (specifics_count : Z) :
  0 <= specifics_count < 2 ^ 64 ->
  Z.of_nat n <= 2 ^ 64 ->
  let ss := (IsolateSpecific_ctors n specifics_count).1 in
  length ss = n /\
  NoDup (key <$> ss) /\
  (forall (i j : nat) si sj,
     i <> j -> ss !! i = Some si -> ss !! j = Some sj -> key si <> key sj).
Proof.
  intros Hc Hn ss.
  pose proof (IsolateSpecific_ctors_NoDup n specifics_count Hc Hn) as Hnd.
  fold ss in Hnd. split; [|split; [done|]].
  - unfold ss. rewrite IsolateSpecific_ctors_keys by done.
    by rewrite length_fmap, length_seq.
  - intros i j si sj Hij Hi Hj Hk. apply Hij.
    eapply (NoDup_lookup (key <$> ss)); [done| |].
    + rewrite list_lookup_fmap, Hi. done.
    + rewrite list_lookup_fmap, Hj. simpl. by rewrite Hk.
Qed.

(** Three objects constructed from a counter at the last value of the
    counter: the keys are [2^64 - 1], 0 and 1. *)
Lemma IsolateSpecific_keys_distinct_witness :
  let ss := (IsolateSpecific_ctors 3 (2 ^ 64 - 1)).1 in
  length ss = 3%nat /\
  NoDup (key <$> ss) /\
  (forall (i j : nat) si sj,
     i <> j -> ss !! i = Some si -> ss !! j = Some sj -> key si <> key sj).
Proof. apply (IsolateSpecific_keys_distinct 3 (2 ^ 64 - 1)); lia. Defined.

(** ** The factory, the holders and termination *)

Section links.
Implicit Types (p : Process) (e : IsolateEnvironment).

Lemma New_isolate_fresh p :
  isolates p !! fresh (dom (isolates p)) = None.
Proof. apply not_elem_of_dom, is_fresh. Qed.

Lemma New_holder_fresh env p : holders p !! (New env p).1 = None.
Proof. unfold New. simpl. apply not_elem_of_dom, is_fresh. Qed.

Lemma New_isolates env p b :
  isolates (New env p).2 !! b
  = if decide (b = fresh (dom (isolates p)))
    then Some (set_holder (Some (New env p).1) env)
    else isolates p !! b.
Proof.
  unfold New. simpl. case_decide as Hb.
  - subst. by rewrite lookup_insert_eq.
  - by rewrite !lookup_insert_ne.
Qed.

Lemma New_holders env p g :
  holders (New env p).2 !! g
  = if decide (g = (New env p).1)
    then Some {| holder_isolate := Some (fresh (dom (isolates p))) |}
    else holders p !! g.
Proof.
  unfold New. simpl. case_decide as Hg.
  - subst. by rewrite lookup_insert_eq.
  - by rewrite lookup_insert_ne.
Qed.

(** What [Terminate] needs in order to return, and the process it
    returns. *)
Lemma Terminate_Return_inv this p p' :
  Terminate this p = Return p' ->
  exists e h,
    isolates p !! this = Some e /\ root e = false /\ holder e = Some h /\
    is_Some (holders p !! h) /\
    p' = store_holder h {| holder_isolate := None |}
           (store_isolate this
              (set_isolate (TerminateExecution (isolate e))
                 (set_terminated true e)) p).
Proof.
  unfold Terminate, deref.
  destruct (isolates p !! this) as [e|] eqn:He; [|done]. simpl.
  destruct (root e) eqn:Hroot; [done|]. simpl.
  destruct (holder e) as [h|] eqn:Hh; [|done].
  destruct (holders p !! h) as [x|] eqn:Hx; [|done]. simpl.
  intros [= <-]. exists e, h. eauto 10.
Qed.

Lemma New_keeps_links env p :
  holders_consistent p -> environments_held p ->
  holders_consistent (New env p).2 /\ environments_held (New env p).2.
Proof.
  intros Hc Hh. split.
  - intros g b. rewrite New_holders. case_decide as Hg.
    + intros [= <-]. rewrite New_isolates, decide_True by done.
      subst. eauto.
    + intros Hgb. destruct (Hc g b Hgb) as (e & He & Hhold).
      exists e. split; [|done]. rewrite New_isolates.
      rewrite decide_False; [done|]. intros ->.
      by rewrite New_isolate_fresh in He.
  - intros b e. rewrite New_isolates. case_decide as Hb.
    + intros [= <-]. exists (New env p).1. split; [done|].
      rewrite New_holders, decide_True by done. eauto.
    + intros He. destruct (Hh b e He) as (g & Hg & Halive).
      exists g. split; [done|]. rewrite New_holders.
      case_decide; eauto.
Qed.

Lemma Terminate_keeps_links this p p' :
  Terminate this p = Return p' ->
  holders_consistent p -> environments_held p ->
  holders_consistent p' /\ environments_held p'.
Proof.
  intros (e & h & He & Hroot & Hhold & Halive & ->)%Terminate_Return_inv
    Hc Hh.
  split.
  - intros g b. simpl. destruct (decide (g = h)) as [->|Hg].
    + by rewrite lookup_insert_eq.
    + rewrite lookup_insert_ne by done. intros Hgb.
      destruct (Hc g b Hgb) as (eb & Heb & Hholdb).
      destruct (decide (b = this)) as [->|Hb].
      * rewrite lookup_insert_eq. eexists. split; [done|].
        simpl. congruence.
      * rewrite lookup_insert_ne by done. eauto.
  - intros b eb. simpl. destruct (decide (b = this)) as [->|Hb].
    + rewrite lookup_insert_eq. intros [= <-]. exists h.
      split; [done|]. rewrite lookup_insert_eq. eauto.
    + rewrite lookup_insert_ne by done. intros Heb.
      destruct (Hh b eb Heb) as (g & Hg & Hgalive). exists g.
      split; [done|]. destruct (decide (g = h)) as [->|Hgh].
      * rewrite lookup_insert_eq. eauto.
      * by rewrite lookup_insert_ne.
Qed.

Lemma Set_keeps_links s handle th p p' :
  Set_ s handle th p = Return p' ->
  holders_consistent p -> environments_held p ->
  holders_consistent p' /\ environments_held p'.
Proof.
  unfold Set_, deref.
  destruct (GetCurrent th) as [a|]; [|done].
  destruct (isolates p !! a) as [e|] eqn:He; [|done]. simpl.
  intros [= <-] Hc Hh. split.
  - intros g b Hgb. simpl in *.
    destruct (Hc g b Hgb) as (eb & Heb & Hholdb).
    destruct (decide (b = a)) as [->|Hb].
    + rewrite lookup_insert_eq. eexists. split; [done|].
      simpl. congruence.
    + rewrite lookup_insert_ne by done. eauto.
  - intros b eb. simpl. destruct (decide (b = a)) as [->|Hb].
    + rewrite lookup_insert_eq. intros [= <-]. simpl.
      by apply (Hh a e).
    + rewrite lookup_insert_ne by done. apply Hh.
Qed.

Lemma calls_keep_links cs p p' :
  calls cs p = Return p' ->
  holders_consistent p -> environments_held p ->
  holders_consistent p' /\ environments_held p'.
Proof.
  revert p. induction cs as [|c cs IH]; intros p; simpl.
  - by intros [= <-].
  - destruct (call c p) as [q| |] eqn:Hq; [|done..]. simpl.
    intros Hcs Hc Hh.
    assert (holders_consistent q /\ environments_held q) as [Hcq Hhq].
    { destruct c as [env|this|th s handle]; simpl in Hq.
      - injection Hq as <-. by apply New_keeps_links.
      - by eapply Terminate_keeps_links.
      - by eapply Set_keeps_links. }
    by apply (IH q).
Qed.

End links.

(** X5. The factory takes an environment address and a holder address
    that were not in use, makes the holder point to the environment and
    the environment to the holder, and leaves every environment and every
    holder the process had as it was. *)
Theorem New_fresh (env : IsolateEnvironment) (p : Process) :
  holders p !! (New env p).1 = None /\
  exists a,
    isolates p !! a = None /\
    holders (New env p).2 !! (New env p).1
    = Some {| holder_isolate := Some a |} /\
    isolates (New env p).2 !! a = Some (set_holder (Some (New env p).1) env) /\
    (forall b, b <> a -> isolates (New env p).2 !! b = isolates p !! b) /\
    (forall g, g <> (New env p).1 ->
               holders (New env p).2 !! g = holders p !! g).
Proof.
  split; [apply New_holder_fresh|].
  exists (fresh (dom (isolates p))). split; [apply New_isolate_fresh|].
  split; [by rewrite New_holders, decide_True|].
  split; [by rewrite New_isolates, decide_True|]. split.
  - intros b Hb. by rewrite New_isolates, decide_False.
  - intros g Hg. by rewrite New_holders, decide_False.
Qed.

(** A second environment made in a process that has one. *)
Lemma New_fresh_witness :
  let p := (New (new 1024) empty_process).2 in
  isolates (New (new 2048) p).2 !! 0%nat = isolates p !! 0%nat /\
  holders (New (new 2048) p).2 !! 0%nat = holders p !! 0%nat /\
  (New (new 2048) p).1 = 1%nat.
Proof.
  intros p.
  destruct (New_fresh (new 2048) p) as (_ & a & Ha & _ & _ & Hiso & Hhold).
  assert (a <> 0%nat) by (intros ->; vm_compute in Ha; discriminate).
  split; [by apply Hiso|]. split; [by apply Hhold|]. reflexivity.
Defined.

(** X6. In a process whose environments were all made by the factory,
    whatever calls of the factory, of [Terminate] and of slot writes have
    returned since: a holder that points to an environment is the holder
    of that environment, every environment has a live holder, and so
    [Terminate] never dereferences a null holder: it returns on every
    environment that is not the root, and fails its assertion on one that
    is. *)
Theorem calls_keep_holders (cs : list Call) (p p' : Process) :
  holders_consistent p -> environments_held p ->
  calls cs p = Return p' ->
  holders_consistent p' /\ environments_held p' /\
  (forall this e,
     isolates p' !! this = Some e ->
     (root e = false -> exists p'', Terminate this p' = Return p'') /\
     (root e = true -> Terminate this p' = Die AssertionFailed)).
Proof.
  intros Hc Hh Hcalls.
  destruct (calls_keep_links cs p p' Hcalls Hc Hh) as [Hc' Hh'].
  split; [done|]. split; [done|]. intros this e He.
  destruct (Hh' this e He) as (h & Hhold & Halive). split.
  - intros Hroot. eexists. by eapply Terminate_linked.
  - intros Hroot. unfold Terminate, deref. rewrite He. simpl.
    by rewrite Hroot.
Qed.

(** From the empty process: two environments are made, the first is
    terminated twice and a slot of the second is written. *)
Lemma calls_keep_holders_witness :
  let cs := [CallNew (new 1024); CallNew (new 2048); CallTerminate 0%nat;
             CallSet (ExecutorLock_ctor 1%nat (initial_thread None))
               {| key := 2%nat |} Null;
             CallTerminate 0%nat] in
  exists p',
    calls cs empty_process = Return p' /\
    holders_consistent p' /\ environments_held p' /\
    (forall this e,
       isolates p' !! this = Some e ->
       (root e = false -> exists p'', Terminate this p' = Return p'') /\
       (root e = true -> Terminate this p' = Die AssertionFailed)).
Proof.
  intros cs. eexists. split; [vm_compute; reflexivity|].
  apply (calls_keep_holders cs empty_process).
  - intros h a Hh. simpl in Hh. by rewrite lookup_empty in Hh.
  - intros a e He. simpl in He. by rewrite lookup_empty in He.
  - vm_compute. reflexivity.
Defined.

(** X7. [Terminate] never throws. When it returns, the environment keeps
    its holder, its memory limit and flag, its keyed slots, its stashed
    rejection and the objects, external strings and buffers of its
    isolate; no other environment and no other holder changes. It stops
    on the assertion exactly on a root environment, and on a null
    dereference exactly when the environment is missing, has no holder,
    or its holder is gone. *)
Theorem Terminate_frame (this : addr) (p : Process) :
  match Terminate this p with
  | Return p' =>
      exists e e' h,
        isolates p !! this = Some e /\ isolates p' !! this = Some e' /\
        root e = false /\ holder e = Some h /\
        (forall b, b <> this -> isolates p' !! b = isolates p !! b) /\
        (forall g, g <> h -> holders p' !! g = holders p !! g) /\
        holder e' = holder e /\ memory_limit e' = memory_limit e /\
        hit_memory_limit e' = hit_memory_limit e /\ root e' = root e /\
        last_heap e' = last_heap e /\
        rejected_promise_error e' = rejected_promise_error e /\
        specifics e' = specifics e /\
        objects (isolate e') = objects (isolate e) /\
        external_strings (isolate e') = external_strings (isolate e) /\
        buffers (isolate e') = buffers (isolate e)
  | Throw _ => False
  | Die w =>
      (w = AssertionFailed /\
       exists e, isolates p !! this = Some e /\ root e = true) \/
      (w = NullDereference /\
       (isolates p !! this = None \/
        exists e, isolates p !! this = Some e /\ root e = false /\
                  (holder e = None \/
                   exists h, holder e = Some h /\ holders p !! h = None)))
  end.
Proof.
  unfold Terminate, deref.
  destruct (isolates p !! this) as [e|] eqn:He; simpl; [|right; eauto].
  destruct (root e) eqn:Hroot; simpl; [left; eauto|].
  destruct (holder e) as [h|] eqn:Hh; simpl; [|right; eauto 10].
  destruct (holders p !! h) as [x|] eqn:Hx; simpl; [|right; eauto 10].
  eexists e, _, h. split; [done|].
  split; [by rewrite lookup_insert_eq|]. split; [done|]. split; [done|].
  split; [intros b Hb; by rewrite lookup_insert_ne|].
  split; [intros g Hg; by rewrite lookup_insert_ne|]. done.
Qed.

(** An environment stored without the factory has no holder: [Terminate]
    ends in a null dereference. One made by the factory is terminated and
    keeps its slots. *)
Lemma Terminate_frame_witness :
  let q := {| isolates := {[ 0%nat := new 1024 ]}; holders := ∅ |} in
  let p := (New (set_specifics [Some Null] (new 1024)) empty_process).2 in
  Terminate 0%nat q = Die NullDereference /\
  exists p' e',
    Terminate 0%nat p = Return p' /\ isolates p' !! 0%nat = Some e' /\
    specifics e' = [Some Null].
Proof.
  intros q p. split.
  - pose proof (Terminate_frame 0%nat q) as Hf.
    destruct (Terminate 0%nat q) as [p'|x|w] eqn:Ht;
      [vm_compute in Ht; discriminate|done|].
    destruct Hf as [[-> (e & He & Hroot)]|[-> _]]; [|done].
    vm_compute in He. injection He as <-. discriminate.
  - pose proof (Terminate_frame 0%nat p) as Hf.
    destruct (Terminate 0%nat p) as [p'|x|w] eqn:Ht;
      [|done|vm_compute in Ht; discriminate].
    destruct Hf as (e & e' & h & He & He' & _ & _ & _ & _ & _ & _ & _ & _
                    & _ & _ & Hspec & _).
    exists p', e'. split; [done|]. split; [done|].
    rewrite Hspec. vm_compute in He. by injection He as <-.
Defined.

(** X8. Under the executor lock of an environment made by the factory,
    [GetCurrentHolder] is the holder the factory returned; after
    [Terminate] it still is, while the holder no longer points to the
    environment. *)
Theorem GetCurrentHolder_New (env : IsolateEnvironment) (p : Process)
  (th : Thread) (a : addr) :
  root env = false ->
  holders (New env p).2 !! (New env p).1
  = Some {| holder_isolate := Some a |} ->
  GetCurrent th = Some a ->
  GetCurrentHolder th (New env p).2 = Return (Some (New env p).1) /\
  exists p2,
    Terminate a (New env p).2 = Return p2 /\
    GetCurrentHolder th p2 = Return (Some (New env p).1) /\
    holders p2 !! (New env p).1 = Some {| holder_isolate := None |}.
Proof.
  intros Hroot Hh Hcur.
  rewrite New_holders, decide_True in Hh by done. injection Hh as <-.
  assert (He : isolates (New env p).2 !! fresh (dom (isolates p))
               = Some (set_holder (Some (New env p).1) env))
    by (by rewrite New_isolates, decide_True).
  split.
  - unfold GetCurrentHolder, deref. by rewrite Hcur, He.
  - eexists. split.
    + eapply Terminate_linked; [done|done|done|].
      rewrite New_holders, decide_True by done. eauto.
    + split.
      * unfold GetCurrentHolder, deref. rewrite Hcur. simpl.
        by rewrite lookup_insert_eq.
      * simpl. by rewrite lookup_insert_eq.
Qed.

Lemma GetCurrentHolder_New_witness :
  let th := ExecutorLock_ctor 0%nat (initial_thread None) in
  let p1 := (New (new 1024) empty_process).2 in
  GetCurrentHolder th p1 = Return (Some 0%nat) /\
  exists p2,
    Terminate 0%nat p1 = Return p2 /\
    GetCurrentHolder th p2 = Return (Some 0%nat) /\
    holders p2 !! 0%nat = Some {| holder_isolate := None |}.
Proof.
  intros th p1.
  apply (GetCurrentHolder_New (new 1024) empty_process th 0%nat);
    reflexivity.
Defined.

(** ** More on [RunWithAnnotatedErrors] *)

Section handler.
Context `{Engine}.

(** What the handler returns is the thrown value with its message
    property set, and the thrown value is an object. *)
Lemma annotate_Return_inv error message error' :
  annotate (Some (error, message)) = Return error' ->
  IsObject error = true /\
  exists units, error' = (Set_message error units).2.
Proof.
  unfold annotate. destruct (IsObject error); [|done]. simpl.
  destruct (GetLineNumber message) as [line|]; [|done]. simpl.
  destruct (GetStartColumn message) as [col|]; [|done]. simpl.
  destruct (std_string (Utf8Value (GetScriptResourceName message)))
    as [r| |]; [|done..]. simpl.
  destruct (int_add col 1) as [column| |]; [|done..]. simpl.
  destruct (Get_message error) as [property|]; [|done]. simpl.
  destruct (std_string (Utf8Value property)) as [text| |]; [|done..]. simpl.
  destruct (v8_string _) as [units| |]; [|done..]. simpl.
  destruct (Set_message error units) as [done' error''] eqn:Hset.
  destruct done' as [b|]; [|done]. simpl. intros [= <-].
  split; [done|]. exists units. by rewrite Hset.
Qed.

Lemma get_set_property_eq k v props :
  get_property k (set_property k v props) = Some v.
Proof.
  induction props as [|[k' v'] props IH]; simpl.
  - by rewrite decide_True.
  - case_decide; simpl; [by rewrite decide_True|by rewrite decide_False].
Qed.

Lemma get_set_property_ne k k' v props :
  k' <> k -> get_property k' (set_property k v props) = get_property k' props.
Proof.
  intros Hne. induction props as [|[k0 v0] props IH]; simpl.
  - by rewrite decide_False.
  - case_decide as Hk0; simpl.
    + subst. by rewrite !decide_False.
    + case_decide; [done|apply IH].
Qed.

Lemma string_app_empty_r (s : string) : s +:+ EmptyString = s.
Proof.
  induction s as [|c s IH]; [done|].
  change (String.String c (s +:+ EmptyString) = String.String c s).
  by rewrite IH.
Qed.

Lemma widen_bounded s : Forall (fun u => 0 <= u < 256) (widen s).
Proof.
  induction s as [|c s IH]; simpl; constructor; [|done].
  pose proof (Ascii.N_ascii_bounded c). lia.
Qed.

Lemma annotate_outcome (try_catch : TryCatch) :
  match annotate try_catch with
  | Return _ => True
  | Throw e => e = js_runtime_error \/ e = std_logic_error
  | Die w => w = AssertionFailed \/ w = SignedOverflow \/ w = EngineCrash
  end.
Proof.
  unfold annotate. destruct try_catch as [[error message]|]; [|simpl; auto].
  unfold assert. destruct (IsObject error); simpl; [|auto].
  destruct (GetLineNumber message) as [line|]; simpl; [|auto].
  destruct (GetStartColumn message) as [column|]; simpl; [|auto].
  destruct (Utf8Value (GetScriptResourceName message)) as [resource|];
    simpl; [|auto].
  unfold int_add. destruct (decide _); simpl; [|auto].
  destruct (Get_message error) as [property|]; simpl; [|auto].
  destruct (Utf8Value property) as [message_str|]; simpl; [|auto].
  unfold v8_string, NewFromOneByte. destruct (decide _); simpl; [|auto].
  destruct (Set_message _ _) as [[done|] error']; simpl; auto.
Qed.

End handler.

(** X9. [RunWithAnnotatedErrors] never turns a failure into a result nor
    a result into a failure: it returns a value exactly when [fn] returned
    it, and then leaves no exception pending. When [fn] throws a
    [js_runtime_error], what leaves the function is a [js_runtime_error],
    or the [std::logic_error] of a string made from a null pointer, which
    neither handler catches, or the process stops: on an assertion, on
    the overflow of the column, or in the engine on a string it does not
    allow. An exception is left pending only together with a
    [js_runtime_error]. *)
Theorem RunWithAnnotatedErrors_outcome `{Engine} {T : Type}
  (fn : Completion T * TryCatch) :
  (forall v, (RunWithAnnotatedErrors fn).1 = Return v <-> fn.1 = Return v) /\
  (forall v, fn.1 = Return v -> (RunWithAnnotatedErrors fn).2 = None) /\
  (fn.1 = Throw js_runtime_error ->
   (RunWithAnnotatedErrors fn).1 = Throw js_runtime_error \/
   RunWithAnnotatedErrors fn = (Throw std_logic_error, None) \/
   RunWithAnnotatedErrors fn = (Die AssertionFailed, None) \/
   RunWithAnnotatedErrors fn = (Die SignedOverflow, None) \/
   RunWithAnnotatedErrors fn = (Die EngineCrash, None)) /\
  (forall error, (RunWithAnnotatedErrors fn).2 = Some error ->
                 (RunWithAnnotatedErrors fn).1 = Throw js_runtime_error /\
                 fn.1 = Throw js_runtime_error).
Proof.
  destruct fn as [[v|e|w] try_catch]; simpl.
  - split_and!; try done; by intros e0 [=].
  - destruct e as [| | |kind]; simpl; try (split_and!; done).
    pose proof (annotate_outcome try_catch) as Hout.
    destruct (annotate try_catch) as [error|e|w]; simpl.
    + split_and!; try done; eauto.
    + destruct Hout as [->| ->]; simpl; split_and!; try done; eauto.
    + destruct Hout as [->|[->| ->]]; simpl; split_and!; try done; eauto 6.
  - split_and!; done.
Qed.

Lemma RunWithAnnotatedErrors_outcome_witness :
  let message := {| GetLineNumber := Some 1; GetStartColumn := Some 0;
                    GetScriptResourceName := Undefined |} in
  let error := Object [(message_key, Symbol (widen "s"))] in
  RunWithAnnotatedErrors (H := Reference.engine) (T := Z) (Return 2, None)
  = (Return 2, None) /\
  RunWithAnnotatedErrors (H := Reference.engine) (T := Z)
    (Throw js_runtime_error, Some (error, message))
  = (Throw std_logic_error, None).
Proof.
  intros message error.
  destruct (RunWithAnnotatedErrors_outcome (H := Reference.engine) (T := Z)
              (Return 2, None)) as (Hret & Hpend & _).
  split.
  - apply injective_projections; [by apply Hret|by apply (Hpend 2)].
  - destruct (RunWithAnnotatedErrors_outcome (H := Reference.engine) (T := Z)
                (Throw js_runtime_error, Some (error, message)))
      as (_ & _ & Hthrow & _).
    destruct (Hthrow eq_refl) as [Hjs|[Hlogic|[Hdie|[Hdie|Hdie]]]];
      [vm_compute in Hjs; discriminate|exact Hlogic|
       vm_compute in Hdie; discriminate..].
Defined.

(** X10. When the message of the exception has no line number or no start
    column, the handler rethrows the exception as it was caught: the
    error is left pending with its message untouched. *)
Theorem RunWithAnnotatedErrors_no_position `{Engine} (error : Value)
  (message : Message) :
  IsObject error = true ->
  GetLineNumber message = None \/ GetStartColumn message = None ->
  RunWithAnnotatedErrors (T := unit)
    (Throw js_runtime_error, Some (error, message))
  = (Throw js_runtime_error, Some error).
Proof.
  intros Hobj Hpos. unfold RunWithAnnotatedErrors, annotate.
  rewrite Hobj. simpl.
  destruct (GetLineNumber message) as [line|]; [|done]. simpl.
  destruct Hpos as [?|Hcol]; [done|]. by rewrite Hcol.
Qed.

Lemma RunWithAnnotatedErrors_no_position_witness :
  let message := {| GetLineNumber := Some 3; GetStartColumn := None;
                    GetScriptResourceName := Undefined |} in
  let error := ErrorObject ErrorType.RangeError (widen "x") [] in
  RunWithAnnotatedErrors (T := unit)
    (Throw js_runtime_error, Some (error, message))
  = (Throw js_runtime_error, Some error).
Proof.
  intros message error.
  apply (RunWithAnnotatedErrors_no_position error message);
    [reflexivity|by right].
Defined.

(** X11. The handler asserts that an exception was caught and that it is
    an object: a [js_runtime_error] with nothing caught, or with a
    primitive thrown, stops on the assertion. *)
Theorem RunWithAnnotatedErrors_asserts `{Engine} (error : Value)
  (message : Message) :
  RunWithAnnotatedErrors (T := unit) (Throw js_runtime_error, None)
  = (Die AssertionFailed, None) /\
  (IsObject error = false ->
   RunWithAnnotatedErrors (T := unit)
     (Throw js_runtime_error, Some (error, message))
   = (Die AssertionFailed, None)).
Proof.
  split; [done|]. intros Hobj. unfold RunWithAnnotatedErrors, annotate.
  by rewrite Hobj.
Qed.

Lemma RunWithAnnotatedErrors_asserts_witness :
  let message := {| GetLineNumber := Some 1; GetStartColumn := Some 0;
                    GetScriptResourceName := Undefined |} in
  RunWithAnnotatedErrors (T := unit)
    (Throw js_runtime_error, Some (Number 42, message))
  = (Die AssertionFailed, None).
Proof.
  intros message.
  by apply (RunWithAnnotatedErrors_asserts (Number 42) message).
Defined.

(** X12. The decoration keeps what the thrown value is. An error object
    stays an error object of its kind. Of a plain object, the property
    [message] becomes a string and every other property keeps its value.
    What is thrown on is an object. *)
Theorem decorate_only_message `{Engine} (message : Message)
  (error error' : Value) :
  decorate message error = Return error' ->
  IsObject error' = true /\
  (forall kind m st, error = ErrorObject kind m st ->
                     exists m' st', error' = ErrorObject kind m' st') /\
  (forall props, error = Object props ->
     exists props' units,
       error' = Object props' /\
       get_property message_key props' = Some (String units) /\
       forall k, k <> message_key ->
                 get_property k props' = get_property k props).
Proof.
  unfold decorate. intros (Hobj & units & ->)%annotate_Return_inv.
  split; [by destruct error|]. split.
  - intros kind m st ->. by eexists _, _.
  - intros props ->. eexists _, units. split; [done|].
    split; [apply get_set_property_eq|].
    intros k Hk. by apply get_set_property_ne.
Qed.

(** The object [{code: 7, message: "x"}], thrown at line 1, column 0 of
    [a.js], on the reference engine. *)
Lemma decorate_only_message_witness :
  let message := {| GetLineNumber := Some 1; GetStartColumn := Some 0;
                    GetScriptResourceName := String (widen "a.js") |} in
  let props := [(widen "code", Number 7); (widen "message", String (widen "x"))] in
  exists props' units,
    decorate message (Object props) = Return (Object props') /\
    get_property message_key props' = Some (String units) /\
    get_property (widen "code") props' = Some (Number 7).
Proof.
  intros message props.
  destruct (decorate message (Object props)) as [error'| |] eqn:Hd;
    [|vm_compute in Hd; discriminate..].
  destruct (decorate_only_message message (Object props) error' Hd)
    as (_ & _ & Hprops).
  destruct (Hprops props eq_refl) as (props' & units & -> & Hm & Hk).
  exists props', units. split; [done|]. split; [done|].
  rewrite Hk; [reflexivity|]. vm_compute. discriminate.
Defined.

(** ** Strings made from C++ strings *)

(** X13. [v8_string] reads its argument as a C string: what follows the
    first NUL is dropped. It returns one code unit below 256 for each
    byte before the NUL; when those bytes are more than the engine allows
    in a string, the engine stops the process and nothing is thrown. *)
Theorem v8_string_c_string `{Engine} (s t : string) :
  v8_string (c_str s +:+ String.String Ascii.zero t) = v8_string s /\
  (Z.of_nat (String.length (c_str s)) <= kMaxLength ->
   exists units,
     v8_string s = Return units /\
     length units = String.length (c_str s) /\
     Forall (fun u => 0 <= u < 256) units) /\
  (kMaxLength < Z.of_nat (String.length (c_str s)) ->
   v8_string s = Die EngineCrash).
Proof.
  split; [|split].
  - unfold v8_string, NewFromOneByte. rewrite c_str_app. simpl.
    by rewrite string_app_empty_r.
  - intros Hle. exists (widen (c_str s)).
    split; [by apply v8_string_c_str|].
    split; [apply length_widen|apply widen_bounded].
  - intros Hgt. unfold v8_string, NewFromOneByte.
    by rewrite decide_False by lia.
Qed.

(** On the reference engine, [ab], a NUL and [cd] give the string [ab]. *)
Lemma v8_string_c_string_witness :
  let s := "ab" +:+ String.String Ascii.zero "cd" in
  exists units,
    v8_string s = Return units /\
    length units = String.length (c_str s) /\
    Forall (fun u => 0 <= u < 256) units.
Proof.
  intros s.
  apply (v8_string_c_string s EmptyString). by vm_compute.
Defined.

(** X14. An error thrown through [js_error] and caught by
    [RunWithAnnotatedErrors]: the error has the kind of the class and, as
    message, the bytes of the C++ message up to its first NUL; the handler
    leaves an error of the same kind pending, with the annotation
    appended to the rendering of that message. On a message longer than
    the engine allows, the constructor of [js_error] does not return: the
    engine stops the process. *)
Theorem js_error_annotated `{Engine} (F : ErrorType.t) (m : string)
  (stack : list uint16) (message : Message) (line col : Z)
  (r text : string) :
  (kMaxLength < Z.of_nat (String.length (c_str m)) ->
   js_error F m stack = Die EngineCrash) /\
  (Z.of_nat (String.length (c_str m)) <= kMaxLength ->
   GetLineNumber message = Some line ->
   GetStartColumn message = Some col ->
   - INT_MAX - 1 <= col + 1 <= INT_MAX ->
   Utf8Value (GetScriptResourceName message) = Some r ->
   Utf8Value (String (widen (c_str m))) = Some text ->
   Z.of_nat (String.length
               (c_str text +:+ c_str (annotation (c_str r) line col)))
   <= kMaxLength ->
   js_error F m stack
   = Return (Some (ErrorObject F (widen (c_str m)) stack)) /\
   exists stack',
     RunWithAnnotatedErrors (T := unit)
       (Throw js_runtime_error,
        Some (ErrorObject F (widen (c_str m)) stack, message))
     = (Throw js_runtime_error,
        Some (ErrorObject F
                (widen (c_str text +:+ c_str (annotation (c_str r) line col)))
                stack'))).
Proof.
  split.
  - intros Hgt. unfold js_error, NewFromOneByte.
    by rewrite decide_False by lia.
  - intros Hle Hline Hcol Hrange Hr Htext Hlen. split.
    + unfold js_error, NewFromOneByte. by rewrite decide_True by done.
    + exists stack. unfold RunWithAnnotatedErrors.
      by rewrite (annotate_error F (widen (c_str m)) stack message line col
                    r text).
Qed.

(** [js_type_error("bad")] thrown at line 7, column 4 of [run.js], on the
    reference engine. *)
Lemma js_error_annotated_witness :
  let message := {| GetLineNumber := Some 7; GetStartColumn := Some 4;
                    GetScriptResourceName := String (widen "run.js") |} in
  js_error ErrorType.TypeError "bad" []
  = Return (Some (ErrorObject ErrorType.TypeError (widen "bad") [])) /\
  exists stack',
    RunWithAnnotatedErrors (T := unit)
      (Throw js_runtime_error,
       Some (ErrorObject ErrorType.TypeError (widen "bad") [], message))
    = (Throw js_runtime_error,
       Some (ErrorObject ErrorType.TypeError (widen "bad [run.js:7:5]")
               stack')).
Proof.
  intros message.
  apply (js_error_annotated ErrorType.TypeError "bad" [] message 7 4
           "run.js" "bad");
    [by vm_compute|reflexivity|reflexivity|unfold INT_MAX; lia
    |reflexivity|reflexivity|by vm_compute].
Defined.

Section string_copies.
Context `{Engine}.

Lemma ExternalCopyString_of_message_length sg m :
  length (ExternalCopyString_of_message sg m) = String.length m.
Proof. induction m as [|c m IH]; [done|]. simpl. by rewrite IH. Qed.

Lemma char_to_uint16_bounded sg c : 0 <= char_to_uint16 sg c < 65536.
Proof.
  unfold char_to_uint16. pose proof (Ascii.N_ascii_bounded c).
  destruct (sg && _).
  - apply Z.mod_pos_bound. lia.
  - lia.
Qed.

Lemma char_to_uint16_ascii sg c :
  (Ascii.N_of_ascii c < 128)%N ->
  char_to_uint16 sg c = Z.of_N (Ascii.N_of_ascii c).
Proof.
  intros Hc. unfold char_to_uint16.
  rewrite bool_decide_eq_false_2 by lia. by rewrite andb_false_r.
Qed.

End string_copies.

(** X15. The string copy made from a C++ string has one code unit for
    each byte of the string, the bytes after a NUL included, each below
    [2^16]; a byte below 128 is its own code unit, whether [char] is
    signed or not, and a byte from 128 on is sign-extended where it is.
    Its size is two bytes a unit. [CopyInto] gives the canonical empty
    string only for the empty C++ string, and otherwise the string over
    these units, or throws when the engine refuses the length. *)
Theorem ExternalCopyString_from_message `{Engine} `{ExternalCopyCc}
  (char_is_signed transfer_in : bool) (message : string) (i : Isolate) :
  let value := ExternalCopyString_of_message char_is_signed message in
  length value = String.length message /\
  Forall (fun u => 0 <= u < 65536) value /\
  (forall (n : nat) c,
     String.get n message = Some c ->
     value !! n
     = Some (if char_is_signed && bool_decide (128 <= Z.of_N (Ascii.N_of_ascii c))
             then Z.of_N (Ascii.N_of_ascii c) + 65280
             else Z.of_N (Ascii.N_of_ascii c))) /\
  Size (ExternalCopyString value)
  = (2 * Z.of_nat (String.length message)) mod 2 ^ 64 /\
  CopyInto (ExternalCopyString value) transfer_in i
  = (if decide (message = EmptyString) then (Return String_Empty, i)
     else if decide (Z.of_nat (String.length message) <= kMaxLength)
          then (Return (String value), externalize value i)
          else (Throw js_runtime_error, i)).
Proof.
  intros value. split_and!.
  - apply ExternalCopyString_of_message_length.
  - unfold value. induction message as [|c m IH]; simpl; constructor;
      [apply char_to_uint16_bounded|done].
  - unfold value. clear. induction message as [|c0 m IH]; intros n c.
    + by destruct n.
    + destruct n as [|n]; simpl.
      * intros [= ->]. f_equal. unfold char_to_uint16.
        pose proof (Ascii.N_ascii_bounded c).
        destruct (char_is_signed && _) eqn:Hs; [|done].
        apply andb_true_iff in Hs as [_ Hs%bool_decide_eq_true].
        rewrite <- (Z.mod_small (Z.of_N (Ascii.N_of_ascii c) + 65280) 65536)
          by lia.
        replace (Z.of_N (Ascii.N_of_ascii c) - 256)
          with (Z.of_N (Ascii.N_of_ascii c) + 65280 + (-1) * 65536) by lia.
        by rewrite Z.mod_add.
      * apply IH.
  - unfold value, Size. rewrite ExternalCopyString_of_message_length.
    f_equal. lia.
  - unfold CopyInto, ExternalCopyString_CopyInto, value.
    destruct message as [|c m]; [done|].
    rewrite decide_False by done. rewrite decide_False by done.
    unfold NewExternalTwoByte.
    rewrite ExternalCopyString_of_message_length.
    cbn [ExternalCopyString_of_message].
    by case_decide.
Qed.

(** The bytes [a], NUL, 0xE9, where [char] is signed, on the reference
    engine: three code units, the last one 0xFFE9. *)
Lemma ExternalCopyString_from_message_witness :
  let message := "a" +:+ String.String Ascii.zero
                   (String.String (Ascii.ascii_of_N 233) EmptyString) in
  let value := ExternalCopyString_of_message true message in
  length value = 3%nat /\
  value !! 2%nat = Some 65513 /\
  (CopyInto (ExternalCopyString value) true empty_isolate).1
  = Return (String [97; 0; 65513]).
Proof.
  intros message value.
  destruct (ExternalCopyString_from_message true true message empty_isolate)
    as (Hlen & _ & Hget & _ & Hinto).
  split; [exact Hlen|]. split.
  - apply (Hget 2%nat (Ascii.ascii_of_N 233)). reflexivity.
  - fold value in Hinto. rewrite Hinto. reflexivity.
Defined.
